(** * pre-processing.py: MovieLens ml-1m download, encoding and split

    A shallow embedding of [src/pre-processing.py] and the properties its
    specification states about it.

    Conventions of the embedding.
    - The script works on byte strings ([b'::'], [b'|'], a bytes regular
      expression): a Python byte string is a Rocq [string], one [ascii] per
      byte.
    - A Python [dict] is a [gmap]; the vocabulary maps have byte-string keys
      and integer values.
    - A Python exception is an [exn]; a computation that may raise returns a
      [result].
    - [np.zeros] makes a float64 array.  Every number the script stores in
      one is an integer (0, 1 or a vocabulary index), which float64 holds
      exactly, so an array cell is modelled as the [Z] it holds.
    - The iteration order of a Python [set] is not specified: it is taken
      as an interface, [SetOrder], that only promises every element once. *)

From Stdlib Require Import ZArith Ascii String.
From stdpp Require Import gmap strings list fin_maps.

Local Open Scope Z_scope.

(** ** Exceptions and results *)

Inductive exn : Type :=
  | KeyError (key : string)
  | IndexError
  | ValueError
  | TypeError
  | AttributeError
  | AssertionError (msg : string)
  | OSError (msg : string).

Inductive result (A : Type) : Type :=
  | Ok (a : A)
  | Raise (e : exn).

Arguments Ok {A} a.
Arguments Raise {A} e.

(** The error monad; [x ← c; k] runs [c] and stops at its exception. *)
Global Instance result_ret : MRet result := λ A a, Ok a.

Global Instance result_bind : MBind result := λ A B k c,
  match c with
  | Ok a => k a
  | Raise e => Raise e
  end.

(** A list comprehension [[f x for x in xs]] whose body may raise: elements
    are evaluated left to right and the first exception aborts. *)
Fixpoint comprehension {A B : Type} (f : A → result B) (xs : list A)
  : result (list B) :=
  match xs with
  | [] => Ok []
  | x :: xs' =>
      y ← f x;
      ys ← comprehension f xs';
      Ok (y :: ys)
  end.

(** ** Byte strings *)

(** [bytes.split(sep)] with a one-byte separator: empty fields are kept and
    the empty string splits into one empty field. *)
Fixpoint split_sep (sep : ascii) (s : string) : list string :=
  match s with
  | EmptyString => [EmptyString]
  | String c s' =>
      if Ascii.eqb c sep then EmptyString :: split_sep sep s'
      else match split_sep sep s' with
           | w :: ws => String c w :: ws
           | [] => [String c EmptyString]
           end
  end.

(** The bytes [bytes.split()] treats as whitespace:
    space, [\t], [\n], [\v], [\f], [\r]. *)
Definition is_space (c : ascii) : bool :=
  let n := nat_of_ascii c in
  ((n =? 32) || ((9 <=? n) && (n <=? 13)))%nat.

(** Close the word being read: [cur] holds its bytes, last one first. *)
Definition flush_word (cur : list ascii) : list string :=
  match cur with
  | [] => []
  | _ => [string_of_list_ascii (rev cur)]
  end.

Fixpoint split_ws_from (cur : list ascii) (s : string) : list string :=
  match s with
  | EmptyString => flush_word cur
  | String c s' =>
      if is_space c then flush_word cur ++ split_ws_from [] s'
      else split_ws_from (c :: cur) s'
  end.

(** [bytes.split()] without argument: runs of whitespace separate the
    words, and no empty word is produced. *)
Definition split_ws (s : string) : list string := split_ws_from [] s.

(** [s[:n]]. *)
Definition str_prefix (n : nat) (s : string) : string := substring 0 n s.

(** ** Dictionaries *)

(** [d[k]]. *)
Definition getitem (d : gmap string Z) (k : string) : result Z :=
  match d !! k with
  | Some v => Ok v
  | None => Raise (KeyError k)
  end.

(** [{val: ii for ii, val in enumerate(l, start)}] inserted into [acc]:
    a later occurrence of a key overwrites an earlier one. *)
Fixpoint dict_enumerate_into `{Countable K}
    (acc : gmap K Z) (start : Z) (l : list K) : gmap K Z :=
  match l with
  | [] => acc
  | val :: l' => dict_enumerate_into (<[val := start]> acc) (start + 1) l'
  end.

Definition dict_enumerate `{Countable K} (start : Z) (l : list K) : gmap K Z :=
  dict_enumerate_into ∅ start l.

(** ** NumPy arrays *)

(** The two shapes of array the script builds: a one-dimensional numeric
    array, and the zero-dimensional array [np.array(b)] of a byte string. *)
Inductive ndarray : Type :=
  | NdVector (cells : list Z)
  | NdBytes (b : string).

(** [len(a)]: a zero-dimensional array has no length. *)
Definition np_len (a : ndarray) : result nat :=
  match a with
  | NdVector cells => Ok (length cells)
  | NdBytes _ => Raise TypeError
  end.

Definition np_zeros (n : nat) : list Z := replicate n 0.

(** What a cell of a table column holds after [Series.map] with a
    function: a one-dimensional array as it is, or a byte string. *)
Inductive value : Type :=
  | VArray (cells : list Z)
  | VBytes (b : string).

Definition nul : ascii := "000"%char.

(** The bytes a fixed-width bytes array hands back for an element: NumPy
    pads such elements with NUL bytes and drops every trailing NUL byte
    when the element is read. *)
Fixpoint strip_trailing_nul (s : string) : string :=
  match s with
  | EmptyString => EmptyString
  | String c s' =>
      match strip_trailing_nul s' with
      | EmptyString => if Ascii.eqb c nul then EmptyString else String c EmptyString
      | t => String c t
      end
  end.

(** [Series.map] stores what the function returns, except that a
    zero-dimensional array is replaced by its [.item()]: for the bytes
    array [np.array(b)] that is the byte string read back from it. *)
Definition unbox (a : ndarray) : value :=
  match a with
  | NdVector cells => VArray cells
  | NdBytes b => VBytes (strip_trailing_nul b)
  end.

(** [len(v)] *)
Definition py_len (v : value) : nat :=
  match v with
  | VArray cells => length cells
  | VBytes b => String.length b
  end.

(** An index [i] into an axis of length [n]: negative indices count from
    the end, anything outside [-n, n) is an [IndexError]. *)
Definition np_index (n : nat) (i : Z) : result nat :=
  if (0 <=? i) && (i <? Z.of_nat n) then Ok (Z.to_nat i)
  else if (- Z.of_nat n <=? i) && (i <? 0) then Ok (Z.to_nat (i + Z.of_nat n))
  else Raise IndexError.

(** [a[idx] = x] for a list of integer indices [idx]. *)
Fixpoint np_put (a : list Z) (idx : list Z) (x : Z) : result (list Z) :=
  match idx with
  | [] => Ok a
  | i :: idx' =>
      k ← np_index (length a) i;
      np_put (<[k := x]> a) idx' x
  end.

(** [a[:k] = xs]: the slice has [min k (len a)] cells; [xs] must have that
    many values, or a single value that is broadcast. *)
Definition np_set_prefix (a : list Z) (k : nat) (xs : list Z) : result (list Z) :=
  let n := (k `min` length a)%nat in
  if (length xs =? n)%nat then Ok (xs ++ drop n a)
  else match xs with
       | [x] => Ok (replicate n x ++ drop n a)
       | _ => Raise ValueError
       end.

(** ** The encoders *)

(** [genres_multi_hot(genre_int_map)] returns [helper]; the closure is the
    partial application. *)
Definition genres_multi_hot (genre_int_map : gmap string Z) (genres : string)
  : result ndarray :=
  genre_int_list ← comprehension (getitem genre_int_map) (split_sep "|" genres);
  let multi_hot := np_zeros (size genre_int_map) in
  multi_hot ← np_put multi_hot genre_int_list 1;
  Ok (NdVector multi_hot).

(** [title_encode(word_int_map)] returns [helper]. *)
Definition title_encode (word_int_map : gmap string Z) (title : string)
  : result ndarray :=
  title_words ← comprehension (getitem word_int_map) (split_ws title);
  if (15 <? length title_words)%nat then Ok (NdBytes (str_prefix 15 title))
  else
    let title_vector := np_zeros 15 in
    title_vector ← np_set_prefix title_vector (length title_words) title_words;
    Ok (NdVector title_vector).

(** ** Python sets *)

(** Iterating over a set built from the values [l] (by [set(l)], or by
    [update] calls that add them) yields every distinct value of [l] exactly
    once, in an order the language leaves open.  [set_iter l] is that
    order; nothing else is known about it. *)
Class SetOrder (K : Type) := {
  set_iter : list K → list K;
  set_iter_NoDup : ∀ l, NoDup (set_iter l);
  set_iter_elem : ∀ l x, x ∈ set_iter l ↔ x ∈ l
}.

(** One possible order: the values as they come, each at its last
    occurrence. *)
Definition last_seen_order (K : Type) `{EqDecision K} : SetOrder K :=
  {| set_iter := remove_dups;
     set_iter_NoDup := NoDup_remove_dups;
     set_iter_elem := λ l x, elem_of_remove_dups l x |}.

(** Another one: backwards, each value at its first occurrence. *)
Program Definition backwards_order (K : Type) `{EqDecision K} : SetOrder K :=
  {| set_iter := λ l, remove_dups (reverse l) |}.
Next Obligation. intros. apply NoDup_remove_dups. Qed.
Next Obligation. intros. by rewrite elem_of_remove_dups, elem_of_reverse. Qed.

(** ** The title pattern *)

Definition is_digit (c : ascii) : bool :=
  let n := nat_of_ascii c in ((48 <=? n) && (n <=? 57))%nat.

Definition newline : ascii := "010"%char.

(** The longest run of digits at the head of [r], and what follows it. *)
Fixpoint span_digits (r : list ascii) : list ascii * list ascii :=
  match r with
  | c :: r' =>
      if is_digit c then let '(ds, rest) := span_digits r' in (c :: ds, rest)
      else ([], r)
  | [] => ([], [])
  end.

(** [pattern.match(x)] for the compiled title pattern (start of subject;
    group 1: any bytes, greedy; an opening parenthesis; group 2: one or more
    digits; a closing parenthesis; end of subject), as the pair of its two
    groups.  The subject is read from its end: [$] accepts the end of the
    subject or the position before a final newline; then come [)], one or
    more digits and [(]; what is left is group 1, which must be free of
    newlines since [.] does not match one.  The digits cannot contain [(],
    so there is at most one way to match. *)
Definition pattern_match (x : string) : option (string * string) :=
  let r := rev (list_ascii_of_string x) in
  let r := match r with
           | c :: r' => if Ascii.eqb c newline then r' else r
           | [] => r
           end in
  match r with
  | c :: r1 =>
      if Ascii.eqb c ")" then
        let '(ds, r2) := span_digits r1 in
        match ds, r2 with
        | _ :: _, o :: r3 =>
            if Ascii.eqb o "(" && negb (existsb (Ascii.eqb newline) r3)
            then Some (string_of_list_ascii (rev r3), string_of_list_ascii (rev ds))
            else None
        | _, _ => None
        end
      else None
  | [] => None
  end.

(** [pattern.match(x).group(1)]: without a match, [match] returns [None]
    and [.group] raises. *)
Definition title_without_year (x : string) : result string :=
  match pattern_match x with
  | Some (g1, _) => Ok g1
  | None => Raise AttributeError
  end.

(** ** load_data *)

(** The tables as [pd.read_table] delivers them, one record per line. *)
Record user := {
  UserID : Z;
  Gender : string;
  Age : Z;
  JobID : Z
}.

Record movie := {
  MovieID : Z;
  Title : string;
  Genres : string
}.

(** The tables with their derived columns.  [Series.map] with a [dict]
    gives NaN where the key is missing: [None]. *)
Record user_row := {
  user_of :> user;
  GenderIndex : option Z;
  AgeIndex : option Z
}.

Record movie_row := {
  movie_of :> movie;
  TitleWithoutYear : string;
  GenresMultiHot : ndarray;
  TitleIndex : value
}.

Definition gender_map : gmap string Z := {[ "F" := 0; "M" := 1 ]}.

Section load_data.
Context {age_order : SetOrder Z} {token_order : SetOrder string}.

Definition age_map_of (users : list user) : gmap Z Z :=
  dict_enumerate 0 (set_iter (Age <$> users)).

(** The users block: the two index columns. *)
Definition load_users (users : list user) : list user_row :=
  let age_map := age_map_of users in
  (λ u, {| user_of := u;
           GenderIndex := gender_map !! Gender u;
           AgeIndex := age_map !! Age u |}) <$> users.

(** [genre_set]: every [update] adds the tokens of one movie. *)
Definition genre_int_map_of (movies : list movie) : gmap string Z :=
  dict_enumerate 0 (set_iter (mjoin (split_sep "|" ∘ Genres <$> movies))).

(** [word_set], from the titles without their year. *)
Definition word_int_map_of (titles : list string) : gmap string Z :=
  dict_enumerate 1 (set_iter (mjoin (split_ws <$> titles))).

(** The movies block.  [Series.map] with a function applies it row by
    row; an exception ends [load_data].  Each result is stored unboxed: a
    multi-hot vector is one-dimensional and stays the array it is, a
    TitleIndex may be the zero-dimensional array of the overflow branch. *)
Definition load_movies (movies : list movie)
  : result (list movie_row * gmap string Z * gmap string Z) :=
  titles ← comprehension (title_without_year ∘ Title) movies;
  let genre_int_map := genre_int_map_of movies in
  hots ← comprehension (genres_multi_hot genre_int_map ∘ Genres) movies;
  let word_int_map := word_int_map_of titles in
  indices ← comprehension (title_encode word_int_map) titles;
  Ok (zip_with (λ m '(t, h, i),
                  {| movie_of := m; TitleWithoutYear := t;
                     GenresMultiHot := h; TitleIndex := unbox i |})
               movies (zip (zip titles hots) indices),
      genre_int_map, word_int_map).
End load_data.

(** ** The fetcher *)

(** What [download_ml_1m] asks of its environment.  The file system and
    the network are behind it; [W] is their state.  Nothing is assumed about
    what these calls do. *)
Record OS (W : Type) := {
  os_path_exists : W → string → bool;
  os_makedirs : W → string → result W;
  (** [urlretrieve(url, filename, hook)]; the hook only drives a progress
      bar. *)
  os_urlretrieve : W → string → string → result W;
  (** [open(filename, 'rb').read()] *)
  os_read : W → string → result string;
  (** [hashlib.md5(data).hexdigest()] *)
  md5_hexdigest : string → string
}.

Arguments os_path_exists {W}.
Arguments os_makedirs {W}.
Arguments os_urlretrieve {W}.
Arguments os_read {W}.
Arguments md5_hexdigest {W}.

(** The calls a run makes, in order. *)
Inductive event : Type :=
  | EvMakedirs (path : string)
  | EvUrlretrieve (url filename : string)
  | EvRead (filename : string)
  | EvMd5 (data : string)
  | EvPrint (line : string).

(** [os.path.join(a, b)] on POSIX. *)
Definition path_join (a b : string) : string :=
  if String.prefix "/" b then b
  else if String.eqb a "" then b
  else if Ascii.eqb (default "/"%char (last (list_ascii_of_string a))) "/" then a +:+ b
  else a +:+ "/" +:+ b.

Section fetcher.
Context {W : Type} (os : OS W).

(** A run threads the world and the log of calls; an exception leaves
    both as they were when it was raised. *)
Definition io (A : Type) : Type := W * list event → result A * (W * list event).

Definition io_ret {A} (a : A) : io A := λ s, (Ok a, s).

Definition io_bind {A B} (k : A → io B) (c : io A) : io B := λ s,
  match c s with
  | (Ok a, s') => k a s'
  | (Raise e, s') => (Raise e, s')
  end.

Definition log (ev : event) : io () := λ '(w, evs), (Ok (), (w, evs ++ [ev])).

Definition path_exists (p : string) : io bool :=
  λ '(w, evs), (Ok (os_path_exists os w p), (w, evs)).

Definition makedirs (p : string) : io () :=
  io_bind (λ _ '(w, evs),
    match os_makedirs os w p with
    | Ok w' => (Ok (), (w', evs))
    | Raise e => (Raise e, (w, evs))
    end) (log (EvMakedirs p)).

Definition urlretrieve (url filename : string) : io () :=
  io_bind (λ _ '(w, evs),
    match os_urlretrieve os w url filename with
    | Ok w' => (Ok (), (w', evs))
    | Raise e => (Raise e, (w, evs))
    end) (log (EvUrlretrieve url filename)).

Definition read_binary (filename : string) : io string :=
  io_bind (λ _ '(w, evs), (os_read os w filename, (w, evs))) (log (EvRead filename)).

Definition md5 (data : string) : io string :=
  io_bind (λ _, io_ret (md5_hexdigest os data)) (log (EvMd5 data)).

Definition print (line : string) : io () := log (EvPrint line).

(** [assert cond, msg], the interpreter running without [-O] *)
Definition py_assert (cond : bool) (msg : string) : io () :=
  λ s, if cond then (Ok (), s) else (Raise (AssertionError msg), s).

Definition when (cond : bool) (c : io ()) : io () :=
  if cond then c else io_ret ().

Notation "x <- c1 ;; c2" := (io_bind (λ x, c2) c1)
  (at level 100, c1 at next level, right associativity).
Notation "c1 ;; c2" := (io_bind (λ _, c2) c1)
  (at level 100, right associativity).

Definition url : string := "http://files.grouplens.org/datasets/movielens/ml-1m.zip".
Definition hash_code : string := "c4d9eecfca2ab87c1945afe126590906".

Definition corrupted_message (save_path : string) : string :=
  save_path +:+ " file is corrupted. Remove the file and try again.".

Definition download_ml_1m (save_path : string) : io string :=
  dir_exists <- path_exists save_path ;;
  when (negb dir_exists) (makedirs save_path) ;;
  let save_pathname := path_join save_path "ml-1m.zip" in
  file_exists <- path_exists save_pathname ;;
  (if file_exists : bool then
     print "skip download ml-1m.zip because the file exists !"
   else
     urlretrieve url save_pathname ;;
     data <- read_binary save_pathname ;;
     digest <- md5 data ;;
     py_assert (String.eqb digest hash_code) (corrupted_message save_path) ;;
     print "Download ml-1m.zip successfully !") ;;
  io_ret save_pathname.
End fetcher.

(** ** Vocabulary of the statements *)

(** The cells [a[idx] = x] writes. *)
Definition written (n : nat) (idx : list Z) (j : nat) : Prop :=
  ∃ i, i ∈ idx ∧ np_index n i = Ok j.

(** A multi-hot vector over [genre_int_map] for a genres string: one cell
    per map entry; a cell is 1 when its position is the index of one of the
    pipe-separated tokens, and 0 when it is the index of none. *)
Definition multi_hot_of (genre_int_map : gmap string Z) (genres : string)
    (a : ndarray) : Prop :=
  ∃ cells, a = NdVector cells
    ∧ length cells = size genre_int_map
    ∧ ∀ j : nat, (j < length cells)%nat →
        let assigned := ∃ g, g ∈ split_sep "|" genres
                             ∧ genre_int_map !! g = Some (Z.of_nat j) in
        (assigned → cells !! j = Some 1) ∧ (¬ assigned → cells !! j = Some 0).

(** A map is a dense zero-based index of the observed values when it
    numbers them 0, 1, 2, ... along some enumeration of the set of values
    observed, and has no other key. *)
Definition dense_index_of `{Countable K} (observed : list K) (d : gmap K Z) : Prop :=
  ∃ order : list K,
    NoDup order
    ∧ (∀ x, x ∈ order ↔ x ∈ observed)
    ∧ ∀ k i, d !! k = Some i ↔ ∃ n : nat, order !! n = Some k ∧ i = Z.of_nat n.

(** Every row has GenderIndex 0 or 1, the value of the fixed map at its
    gender. *)
Definition gender_index_0_or_1 {age_order : SetOrder Z} (users : list user) : Prop :=
  ∀ r : user_row, r ∈ load_users users →
    (GenderIndex r = Some 0 ∨ GenderIndex r = Some 1)
    ∧ GenderIndex r = gender_map !! Gender r.

(** Both user index maps are made from the values present in the table. *)
Definition index_maps_follow_data {age_order : SetOrder Z} (users : list user) : Prop :=
  dense_index_of (Gender <$> users) gender_map
  ∧ dense_index_of (Age <$> users) (age_map_of users).

(** ** Sample inputs *)

Definition sixteen_words : string := "a a a a a a a a a a a a a a a a".

Definition long_title_movie : movie :=
  {| MovieID := 1;
     Title := "a a a a a a a a a a a a a a a a (1999)";
     Genres := "Drama" |}.

(** A title of 17 words whose 15th byte is a NUL byte. *)
Definition nul_title_movie : movie :=
  {| MovieID := 1;
     Title := "a a a a a a a " +:+ String nul " b c d e f g h i j (1999)";
     Genres := "Drama" |}.

Definition war_genres : gmap string Z := {[ "Drama" := 0; "War" := 1 ]}.

Definition heat : movie :=
  {| MovieID := 2; Title := "Heat (1995)"; Genres := "Action|Crime|Thriller" |}.

Definition two_movies : list movie :=
  [ {| MovieID := 1; Title := "Toy Story (1995)";
       Genres := "Animation|Children's|Comedy" |};
    heat ].

(** A table with a gender value other than F and M, and its row with the
    index columns. *)
Definition other_gender_users : list user :=
  [ {| UserID := 1; Gender := "X"; Age := 25; JobID := 4 |} ].

Definition other_gender_row : user_row :=
  {| user_of := {| UserID := 1; Gender := "X"; Age := 25; JobID := 4 |};
     GenderIndex := None;
     AgeIndex := Some 0 |}.

Definition only_men : list user :=
  [ {| UserID := 1; Gender := "M"; Age := 25; JobID := 4 |} ].

Definition three_users : list user :=
  [ {| UserID := 1; Gender := "F"; Age := 1; JobID := 10 |};
    {| UserID := 2; Gender := "M"; Age := 56; JobID := 16 |};
    {| UserID := 3; Gender := "M"; Age := 25; JobID := 15 |} ].

(** A small environment to run the fetcher in: the world maps a path to
    the bytes stored there (a directory stores none), the server answers
    with [served], and the digest of the bytes ["ml-1m archive"] is the
    expected one. *)
Definition toy_os (served : string) : OS (gmap string string) :=
  {| os_path_exists := λ w p, bool_decide (is_Some (w !! p));
     os_makedirs := λ w p,
       if String.eqb p "" then Raise (OSError "No such file or directory")
       else Ok (<[p := ""]> w);
     os_urlretrieve := λ w _ filename, Ok (<[filename := served]> w);
     os_read := λ w filename,
       match w !! filename with
       | Some data => Ok data
       | None => Raise (OSError "No such file or directory")
       end;
     md5_hexdigest := λ data,
       if String.eqb data "ml-1m archive" then hash_code
       else "d41d8cd98f00b204e9800998ecf8427e" |}.

Definition world_with_archive : gmap string string :=
  {[ "./data" := ""; "./data/ml-1m.zip" := "anything" ]}.

(** The first row of [three_users] with its index columns, for the
    iteration order 1, 56, 25 of the ages. *)
Definition first_user_row : user_row :=
  {| user_of := {| UserID := 1; Gender := "F"; Age := 1; JobID := 10 |};
     GenderIndex := Some 0;
     AgeIndex := Some 0 |}.

(** ** The progress hook *)

(** What [DLProgress.hook] reads and writes of the progress bar: the
    attribute [total], the attribute [last_block] (0 in the class), and the
    calls of [update], of which the arguments are kept, oldest first. *)
Record DLProgress := {
  total : option Z;
  last_block : Z;
  updates : list Z
}.

(** A fresh bar: no total was given to the constructor. *)
Definition new_progress : DLProgress :=
  {| total := None; last_block := 0; updates := [] |}.

(** [hook(block_num, block_size, total_size)]; an unknown or absent total
    size is whatever the caller passes, [None] included. *)
Definition hook (block_num block_size : Z) (total_size : option Z)
    (self : DLProgress) : DLProgress :=
  {| total := total_size;
     updates := updates self ++ [(block_num - last_block self) * block_size];
     last_block := block_num |}.

(** The hook called once per report of a transfer whose blocks all have
    the size [block_size]; a report is a block number and a total size. *)
Definition hook_calls (block_size : Z) (reports : list (Z * option Z))
    (self : DLProgress) : DLProgress :=
  foldl (λ self '(block_num, total_size), hook block_num block_size total_size self)
        self reports.

Definition sum_Z (l : list Z) : Z := foldr Z.add 0 l.

(** ** Vocabulary of the further properties *)

(** [sep.join(fields)] for a one-byte separator. *)
Fixpoint join_sep (sep : ascii) (fields : list string) : string :=
  match fields with
  | [] => ""
  | [f] => f
  | f :: fs => f +:+ String sep (join_sep sep fs)
  end.

(** A title [g1] followed by the year [g2] in parentheses. *)
Definition with_year (g1 g2 : string) : string := g1 +:+ "(" +:+ g2 +:+ ")".


(** * Properties *)

(** ** The models on small inputs *)

Example split_sep_ex : split_sep "|" "Action|Sci-Fi||War" = ["Action"; "Sci-Fi"; ""; "War"].
Proof. reflexivity. Qed.

Example split_ws_ex : split_ws "  Toy  Story 2 " = ["Toy"; "Story"; "2"].
Proof. reflexivity. Qed.

Example pattern_match_ex :
  pattern_match "Toy Story (1995)" = Some ("Toy Story ", "1995").
Proof. reflexivity. Qed.

Example pattern_match_inner_paren :
  pattern_match "City of Lost Children, The (1995) (1996)"
  = Some ("City of Lost Children, The (1995) ", "1996").
Proof. reflexivity. Qed.

Example pattern_match_no_year : pattern_match "Toy Story" = None.
Proof. reflexivity. Qed.

Example path_join_ex : path_join "./data" "ml-1m.zip" = "./data/ml-1m.zip".
Proof. reflexivity. Qed.

(** ** Comprehensions *)

Lemma comprehension_Ok {A B} (f : A → result B) xs ys :
  comprehension f xs = Ok ys ↔ Forall2 (λ x y, f x = Ok y) xs ys.
Proof.
  revert ys. induction xs as [|x xs IH]; intros ys; simpl.
  - split; [intros [= <-]; constructor | by inversion 1].
  - destruct (f x) as [y|e] eqn:Hx; simpl.
    + destruct (comprehension f xs) as [ys'|e] eqn:Hxs; simpl.
      * split.
        -- intros [= <-]. constructor; [done | by apply IH].
        -- inversion 1 as [|? y' ? ys'' Hy Hys]; subst.
           apply IH in Hys. congruence.
      * split; [done |]. inversion 1 as [|? ? ? ys'' _ Hys]; subst.
        by apply IH in Hys.
    + split; [done |]. inversion 1; congruence.
Qed.

Lemma comprehension_Raise {A B} (f : A → result B) xs e :
  comprehension f xs = Raise e → ∃ x, x ∈ xs ∧ f x = Raise e.
Proof.
  induction xs as [|x xs IH]; simpl; [done |].
  destruct (f x) as [y|e'] eqn:Hx; simpl.
  - destruct (comprehension f xs) as [ys|e'] eqn:Hxs; simpl; [done |].
    intros [= ->]. destruct IH as (x' & ? & ?); [done |].
    exists x'. split; [by right | done].
  - intros [= ->]. exists x. split; [by left | done].
Qed.

Lemma comprehension_total {A B} (f : A → result B) xs :
  (∀ x, x ∈ xs → ∃ y, f x = Ok y) → ∃ ys, comprehension f xs = Ok ys.
Proof.
  intros Hf. destruct (comprehension f xs) as [ys|e] eqn:E; [by exists ys |].
  apply comprehension_Raise in E as (x & Hx & Hr).
  destruct (Hf x Hx) as [y Hy]. congruence.
Qed.

Lemma comprehension_getitem (d : gmap string Z) ks vs :
  comprehension (getitem d) ks = Ok vs ↔ Forall2 (λ k v, d !! k = Some v) ks vs.
Proof.
  rewrite comprehension_Ok.
  split; intros HF; eapply Forall2_impl; [exact HF | | exact HF |];
    intros k v; unfold getitem; destruct (d !! k); naive_solver.
Qed.

Lemma comprehension_getitem_total (d : gmap string Z) ks :
  (∀ k, k ∈ ks → is_Some (d !! k)) →
  ∃ vs, comprehension (getitem d) ks = Ok vs.
Proof.
  intros Hks. apply comprehension_total. intros k [v Hv]%Hks.
  exists v. unfold getitem. by rewrite Hv.
Qed.

(** ** Enumerated dictionaries *)

Section dict_enumerate.
Context `{Countable K}.
Implicit Types (l : list K) (acc : gmap K Z).

Lemma dict_enumerate_into_notin l acc start k :
  k ∉ l → dict_enumerate_into acc start l !! k = acc !! k.
Proof.
  revert acc start. induction l as [|x l IH]; intros acc start Hk; [done |].
  apply not_elem_of_cons in Hk as [Hne Hk]. simpl.
  rewrite IH by done. by rewrite lookup_insert_ne.
Qed.

Lemma dict_enumerate_into_at l acc start n k :
  NoDup l → l !! n = Some k →
  dict_enumerate_into acc start l !! k = Some (start + Z.of_nat n).
Proof.
  revert acc start n. induction l as [|x l IH]; intros acc start n Hnd Hn; [done |].
  apply NoDup_cons in Hnd as [Hx Hnd]. destruct n as [|n]; simpl in *.
  - injection Hn as ->. rewrite dict_enumerate_into_notin by done.
    rewrite lookup_insert_eq. f_equal. lia.
  - rewrite (IH _ _ n) by done. f_equal. lia.
Qed.

Lemma dict_enumerate_lookup l start k i :
  NoDup l →
  dict_enumerate start l !! k = Some i ↔
  ∃ n : nat, l !! n = Some k ∧ i = start + Z.of_nat n.
Proof.
  intros Hnd. unfold dict_enumerate. destruct (decide (k ∈ l)) as [Hin|Hout].
  - apply list_elem_of_lookup in Hin as [n Hn].
    rewrite (dict_enumerate_into_at _ _ _ n) by done. split.
    + intros [= <-]. by exists n.
    + intros (n' & Hn' & ->).
      by rewrite (NoDup_lookup l n n' k Hnd Hn Hn').
  - rewrite dict_enumerate_into_notin, lookup_empty by done. split; [done |].
    intros (n & Hn & _). destruct Hout. by eapply list_elem_of_lookup_2.
Qed.

Lemma dict_enumerate_is_Some l start k :
  NoDup l → is_Some (dict_enumerate start l !! k) ↔ k ∈ l.
Proof.
  intros Hnd. split.
  - intros [i (n & Hn & _)%dict_enumerate_lookup]; [| done].
    by eapply list_elem_of_lookup_2.
  - intros [n Hn]%list_elem_of_lookup. exists (start + Z.of_nat n).
    apply dict_enumerate_lookup; eauto.
Qed.

Lemma dict_enumerate_into_size l acc start :
  NoDup l → (∀ k, k ∈ l → acc !! k = None) →
  size (dict_enumerate_into acc start l) = (length l + size acc)%nat.
Proof.
  revert acc start. induction l as [|x l IH]; intros acc start Hnd Hacc; [done |].
  apply NoDup_cons in Hnd as [Hx Hnd]. simpl. rewrite IH; [| done |].
  - rewrite map_size_insert_None; [lia |]. apply Hacc. by left.
  - intros k Hk. rewrite lookup_insert_ne by (intros ->; done).
    apply Hacc. by right.
Qed.

Lemma dict_enumerate_size l start :
  NoDup l → size (dict_enumerate start l) = length l.
Proof.
  intros Hnd. unfold dict_enumerate.
  rewrite dict_enumerate_into_size, map_size_empty by done. lia.
Qed.
End dict_enumerate.

(** ** Array updates *)

Lemma np_index_Ok n i k : np_index n i = Ok k → (k < n)%nat.
Proof.
  unfold np_index. repeat case_match; intros [= <-]; lia.
Qed.

Lemma np_index_Raise n i e :
  np_index n i = Raise e → e = IndexError ∧ ¬ (- Z.of_nat n ≤ i < Z.of_nat n).
Proof.
  unfold np_index. repeat case_match; intros [= <-]. split; [done | lia].
Qed.

Lemma np_index_in_range n i :
  - Z.of_nat n ≤ i < Z.of_nat n → ∃ k, np_index n i = Ok k.
Proof.
  intros Hi. destruct (np_index n i) as [k|e] eqn:E; [by exists k |].
  apply np_index_Raise in E as [_ []]. done.
Qed.

Lemma np_index_nonneg n i :
  0 ≤ i < Z.of_nat n → np_index n i = Ok (Z.to_nat i).
Proof.
  intros Hi. unfold np_index.
  destruct (0 <=? i) eqn:E1; [| lia]. destruct (i <? Z.of_nat n) eqn:E2; [done | lia].
Qed.

Lemma np_put_Ok a idx x a' :
  np_put a idx x = Ok a' →
  length a' = length a ∧
  ∀ j, (j < length a)%nat →
       (written (length a) idx j ∧ a' !! j = Some x) ∨
       (¬ written (length a) idx j ∧ a' !! j = a !! j).
Proof.
  revert a. induction idx as [|i idx IH]; intros a; simpl.
  - intros [= <-]. split; [done |]. intros j _. right. split; [| done].
    intros (i & Hi & _). by apply elem_of_nil in Hi.
  - destruct (np_index (length a) i) as [k|e] eqn:Hk; simpl; [| done].
    intros [Hlen Hcells]%IH. rewrite length_insert in Hlen, Hcells.
    split; [done |]. intros j Hj.
    destruct (Hcells j Hj) as [[(i' & Hi' & Hj') ->] | [Hnot ->]].
    + left. split; [| done]. exists i'. split; [by right | done].
    + destruct (decide (k = j)) as [-> | Hne].
      * left. split; [exists i; split; [by left | done] |].
        by apply list_lookup_insert_eq.
      * right. split; [| by apply list_lookup_insert_ne].
        intros (i' & [-> | Hi']%elem_of_cons & Hj').
        -- congruence.
        -- apply Hnot. by exists i'.
Qed.

Lemma np_put_Raise a idx x e :
  np_put a idx x = Raise e →
  e = IndexError ∧
  ∃ i, i ∈ idx ∧ ¬ (- Z.of_nat (length a) ≤ i < Z.of_nat (length a)).
Proof.
  revert a. induction idx as [|i idx IH]; intros a; simpl; [done |].
  destruct (np_index (length a) i) as [k|e'] eqn:Hk; simpl.
  - intros [-> (i' & Hi' & Hr)]%IH. rewrite length_insert in Hr.
    split; [done |]. exists i'. split; [by right | done].
  - intros [= ->]. apply np_index_Raise in Hk as [-> Hr].
    split; [done |]. exists i. split; [by left | done].
Qed.

Lemma np_set_prefix_zeros xs :
  (length xs ≤ 15)%nat →
  np_set_prefix (np_zeros 15) (length xs) xs
  = Ok (xs ++ replicate (15 - length xs) 0).
Proof.
  intros Hlen. unfold np_set_prefix, np_zeros. rewrite length_replicate.
  replace (length xs `min` 15)%nat with (length xs) by lia.
  rewrite Nat.eqb_refl. by rewrite drop_replicate.
Qed.

(** ** The title encoder *)

(** A title has at least as many bytes as words, so a title of more than
    15 words has a prefix of exactly 15 bytes. *)
Lemma split_ws_from_length cur s :
  (length (split_ws_from cur s) ≤ String.length s + length (flush_word cur))%nat.
Proof.
  revert cur. induction s as [|c s IH]; intros cur; simpl; [lia |].
  destruct (is_space c).
  - rewrite length_app. specialize (IH []). simpl in IH. lia.
  - specialize (IH (c :: cur)). simpl in IH. lia.
Qed.

Lemma split_ws_length s : (length (split_ws s) ≤ String.length s)%nat.
Proof. pose proof (split_ws_from_length [] s) as Hl. simpl in Hl. unfold split_ws. lia. Qed.

Lemma str_prefix_length n s :
  (n ≤ String.length s)%nat → String.length (str_prefix n s) = n.
Proof.
  unfold str_prefix. revert s. induction n as [|n IH]; intros s Hn.
  - by destruct s.
  - destruct s as [|c s]; simpl in *; [lia |]. rewrite IH; lia.
Qed.

(** What the encoder returns once the lookups have given [idx]. *)
Lemma title_encode_eval (word_int_map : gmap string Z) (title : string) idx :
  Forall2 (λ w i, word_int_map !! w = Some i) (split_ws title) idx →
  title_encode word_int_map title
  = if (15 <? length idx)%nat then Ok (NdBytes (str_prefix 15 title))
    else Ok (NdVector (idx ++ replicate (15 - length idx) 0)).
Proof.
  intros HF%comprehension_getitem. unfold title_encode. rewrite HF. simpl.
  destruct (15 <? length idx)%nat eqn:Hn; [done |].
  apply Nat.ltb_ge in Hn. by rewrite np_set_prefix_zeros.
Qed.

Lemma title_encode_lookups (word_int_map : gmap string Z) (title : string) :
  (∀ w, w ∈ split_ws title → is_Some (word_int_map !! w)) →
  ∃ idx, Forall2 (λ w i, word_int_map !! w = Some i) (split_ws title) idx.
Proof.
  intros Hvoc. destruct (comprehension_getitem_total _ _ Hvoc) as [idx Hidx].
  exists idx. by apply comprehension_getitem.
Qed.

(** C1: when every word of the title is in the vocabulary, a title of more
    than 15 words is encoded as the 0-dimensional array of the first 15
    bytes of the title string itself, which are exactly 15 bytes, and not as
    a vector of indices; a title of at most 15 words is encoded
    as the vector of the indices of its words, in order, padded with zeros
    to 15 cells; and a vector is returned for no title of more than 15
    words. *)
Theorem title_encode_over_15_words (word_int_map : gmap string Z) (title : string) :
  (∀ w, w ∈ split_ws title → is_Some (word_int_map !! w)) →
  let n := length (split_ws title) in
  ((15 < n)%nat →
     title_encode word_int_map title = Ok (NdBytes (str_prefix 15 title))
     ∧ String.length (str_prefix 15 title) = 15%nat)
  ∧ ((n ≤ 15)%nat →
     ∃ idx, Forall2 (λ w i, word_int_map !! w = Some i) (split_ws title) idx
            ∧ title_encode word_int_map title
              = Ok (NdVector (idx ++ replicate (15 - n) 0)))
  ∧ (∀ cells, title_encode word_int_map title = Ok (NdVector cells) → (n ≤ 15)%nat).
Proof.
  intros Hvoc n. destruct (title_encode_lookups _ _ Hvoc) as [idx HF].
  pose proof (Forall2_length _ _ _ HF) as Hlen. fold n in Hlen.
  rewrite (title_encode_eval _ _ _ HF), <- Hlen.
  destruct (15 <? n)%nat eqn:Hn.
  - apply Nat.ltb_lt in Hn. split_and!; [| lia | by intros ? [=]].
    intros _. split; [done |]. apply str_prefix_length.
    pose proof (split_ws_length title). lia.
  - apply Nat.ltb_ge in Hn.
    split_and!; [lia | | intros; lia]. intros _. by exists idx.
Qed.

Lemma title_encode_over_15_words_witness :
  title_encode {[ "a" := 1 ]} sixteen_words = Ok (NdBytes "a a a a a a a a").
Proof.
  refine (proj1 (proj1 (title_encode_over_15_words {[ "a" := 1 ]} sixteen_words _) _)).
  - apply Forall_forall. apply (bool_decide_unpack _). vm_compute. exact I.
  - vm_compute. lia.
Defined.

(** C2: the length-15 promise of the docstring is broken by the overflow
    branch, which stores bytes of the title and not indices of its words.
    For a movie whose title has 17 words and a NUL byte as its 15th byte,
    [load_data] succeeds and the TitleIndex it stores is the byte string
    ["a a a a a a a "] of length 14: the 15 bytes of the prefix went through
    a bytes array, which drops the trailing NUL. *)
Theorem title_index_of_length_14 :
  match load_movies (token_order := last_seen_order string) [nul_title_movie] with
  | Ok (rows, _, _) =>
      length <$> (split_ws <$> (TitleWithoutYear <$> rows)) = [17%nat]
      ∧ str_prefix 15 <$> (TitleWithoutYear <$> rows)
        = ["a a a a a a a " +:+ String nul ""]
      ∧ TitleIndex <$> rows = [VBytes "a a a a a a a "]
      ∧ py_len <$> (TitleIndex <$> rows) = [14%nat]
  | Raise _ => False
  end.
Proof. vm_compute. repeat split. Qed.

(** A title of 16 words without NUL bytes: the TitleIndex stored is the
    byte string of the first 15 bytes of the title, whose length is 15. *)
Example title_index_of_16_words :
  match load_movies (token_order := last_seen_order string) [long_title_movie] with
  | Ok (rows, _, word_int_map) =>
      word_int_map !! "a" = Some 1
      ∧ TitleWithoutYear <$> rows = ["a a a a a a a a a a a a a a a a "]
      ∧ TitleIndex <$> rows = [VBytes "a a a a a a a a"]
      ∧ py_len <$> (TitleIndex <$> rows) = [15%nat]
  | Raise _ => False
  end.
Proof. vm_compute. repeat split. Qed.

Lemma strip_trailing_nul_length s :
  (String.length (strip_trailing_nul s) ≤ String.length s)%nat.
Proof.
  induction s as [|c s IH]; simpl; [done |].
  destruct (strip_trailing_nul s); [destruct (Ascii.eqb c nul) |]; simpl in *; lia.
Qed.

Lemma strip_trailing_nul_nul_free s :
  nul ∉ list_ascii_of_string s → strip_trailing_nul s = s.
Proof.
  induction s as [|c s IH]; simpl; [done |].
  intros [Hc Hs]%not_elem_of_cons. rewrite (IH Hs).
  destruct s; [| done]. destruct (Ascii.eqb_spec c nul); [by subst | done].
Qed.

(** For a title of at most 15 words the encoder does keep the promise:
    15 cells, the indices of the words in order, then zeros. *)
Lemma title_encode_at_most_15_words (word_int_map : gmap string Z) (title : string) :
  (∀ w, w ∈ split_ws title → is_Some (word_int_map !! w)) →
  (length (split_ws title) ≤ 15)%nat →
  ∃ cells, title_encode word_int_map title = Ok (NdVector cells)
    ∧ length cells = 15%nat
    ∧ (∀ j w, split_ws title !! j = Some w → Some <$> cells !! j = Some (word_int_map !! w))
    ∧ (∀ j, (length (split_ws title) ≤ j < 15)%nat → cells !! j = Some 0).
Proof.
  intros Hvoc Hn. destruct (title_encode_lookups _ _ Hvoc) as [idx HF].
  pose proof (Forall2_length _ _ _ HF) as Hlen.
  rewrite (title_encode_eval _ _ _ HF), <- Hlen.
  destruct (Nat.ltb_spec 15 (length (split_ws title))) as [? | _]; [lia |].
  exists (idx ++ replicate (15 - length (split_ws title)) 0). split_and!; [done | | |].
  - rewrite length_app, length_replicate. lia.
  - intros j w Hj. destruct (Forall2_lookup_l _ _ _ _ _ HF Hj) as (i & Hi & ->).
    by rewrite (lookup_app_l_Some _ _ _ _ Hi).
  - intros j Hj. rewrite lookup_app_r by lia. apply lookup_replicate_2. lia.
Qed.

(** ** The multi-hot encoder *)

(** C10: when every token of the genres string is in the map, the encoder
    either returns a vector with one cell per map entry whose cells are all
    0 or 1, however often a token is repeated, or it raises IndexError
    because the map sends a token to an index outside the vector. *)
Theorem genres_multi_hot_cells_binary (genre_int_map : gmap string Z) (genres : string) :
  (∀ g, g ∈ split_sep "|" genres → is_Some (genre_int_map !! g)) →
  match genres_multi_hot genre_int_map genres with
  | Ok a =>
      ∃ cells, a = NdVector cells
        ∧ length cells = size genre_int_map
        ∧ Forall (λ c, c = 0 ∨ c = 1) cells
  | Raise e =>
      e = IndexError
      ∧ ∃ g i, g ∈ split_sep "|" genres ∧ genre_int_map !! g = Some i
          ∧ ¬ (- Z.of_nat (size genre_int_map) ≤ i < Z.of_nat (size genre_int_map))
  end.
Proof.
  intros Hvoc. unfold genres_multi_hot.
  destruct (comprehension_getitem_total _ _ Hvoc) as [idx Hidx].
  pose proof Hidx as HF%comprehension_getitem. rewrite Hidx. simpl.
  destruct (np_put _ idx 1) as [cells|e] eqn:Hput; simpl.
  - apply np_put_Ok in Hput as [Hlen Hcells].
    unfold np_zeros in Hlen, Hcells. rewrite length_replicate in Hlen, Hcells.
    exists cells. split_and!; [done | done |].
    apply Forall_lookup. intros j c Hj.
    assert (j < size genre_int_map)%nat as Hlt
      by (rewrite <- Hlen; by eapply lookup_lt_Some).
    destruct (Hcells j Hlt) as [[_ Hc] | [_ Hc]].
    + right. congruence.
    + left. rewrite Hc, lookup_replicate_2 in Hj by done. congruence.
  - apply np_put_Raise in Hput as (-> & i & Hi & Hr).
    unfold np_zeros in Hr. rewrite length_replicate in Hr. split; [done |].
    apply list_elem_of_lookup in Hi as [n Hn].
    destruct (Forall2_lookup_r _ _ _ _ _ HF Hn) as (g & Hg & Hgi).
    exists g, i. split_and!; [by eapply list_elem_of_lookup_2 | done | done].
Qed.

Lemma genres_multi_hot_cells_binary_witness :
  ∃ cells, genres_multi_hot war_genres "War|Drama|War" = Ok (NdVector cells)
    ∧ Forall (λ c, c = 0 ∨ c = 1) cells.
Proof.
  assert (∀ g, g ∈ split_sep "|" "War|Drama|War" → is_Some (war_genres !! g)) as Hvoc.
  { apply Forall_forall. apply (bool_decide_unpack _). vm_compute. exact I. }
  pose proof (genres_multi_hot_cells_binary war_genres "War|Drama|War" Hvoc) as Hb.
  assert (genres_multi_hot war_genres "War|Drama|War" = Ok (NdVector [1; 1])) as E
    by (vm_compute; reflexivity).
  rewrite E in Hb. destruct Hb as (cells & [= <-] & _ & Hb).
  exists [1; 1]. split; [exact E | exact Hb].
Defined.

Example genres_multi_hot_repeated :
  genres_multi_hot war_genres "War|Drama|War" = Ok (NdVector [1; 1]).
Proof. vm_compute. reflexivity. Qed.

(** ** The vocabularies of load_data *)

Section vocabularies.
Context {age_order : SetOrder Z} {token_order : SetOrder string}.

Lemma genre_int_map_of_lookup movies g i :
  genre_int_map_of movies !! g = Some i ↔
  ∃ n : nat, set_iter (mjoin (split_sep "|" ∘ Genres <$> movies)) !! n = Some g
             ∧ i = Z.of_nat n.
Proof.
  unfold genre_int_map_of. rewrite dict_enumerate_lookup by apply set_iter_NoDup.
  by setoid_rewrite Z.add_0_l.
Qed.

Lemma genre_int_map_of_is_Some movies g :
  is_Some (genre_int_map_of movies !! g) ↔
  ∃ m, m ∈ movies ∧ g ∈ split_sep "|" (Genres m).
Proof.
  unfold genre_int_map_of. rewrite dict_enumerate_is_Some by apply set_iter_NoDup.
  rewrite set_iter_elem, list_elem_of_join. split.
  - intros (l & Hg & (m & -> & Hm)%list_elem_of_fmap). by exists m.
  - intros (m & Hm & Hg). exists (split_sep "|" (Genres m)). split; [done |].
    apply list_elem_of_fmap. by exists m.
Qed.

Lemma genre_int_map_of_size movies :
  size (genre_int_map_of movies)
  = length (set_iter (mjoin (split_sep "|" ∘ Genres <$> movies))).
Proof. unfold genre_int_map_of. apply dict_enumerate_size, set_iter_NoDup. Qed.

Lemma genre_int_map_of_range movies g i :
  genre_int_map_of movies !! g = Some i →
  0 ≤ i < Z.of_nat (size (genre_int_map_of movies)).
Proof.
  intros (n & Hn & ->)%genre_int_map_of_lookup. rewrite genre_int_map_of_size.
  apply lookup_lt_Some in Hn. lia.
Qed.

Lemma word_int_map_of_lookup titles w i :
  word_int_map_of titles !! w = Some i ↔
  ∃ n : nat, set_iter (mjoin (split_ws <$> titles)) !! n = Some w
             ∧ i = 1 + Z.of_nat n.
Proof.
  unfold word_int_map_of. by rewrite dict_enumerate_lookup by apply set_iter_NoDup.
Qed.

Lemma word_int_map_of_is_Some titles w :
  is_Some (word_int_map_of titles !! w) ↔ ∃ t, t ∈ titles ∧ w ∈ split_ws t.
Proof.
  unfold word_int_map_of. rewrite dict_enumerate_is_Some by apply set_iter_NoDup.
  rewrite set_iter_elem, list_elem_of_join. split.
  - intros (l & Hw & (t & -> & Ht)%list_elem_of_fmap). by exists t.
  - intros (t & Ht & Hw). exists (split_ws t). split; [done |].
    apply list_elem_of_fmap. by exists t.
Qed.

(** The multi-hot encoder on a movie of the corpus its map was built
    from. *)
Lemma genres_multi_hot_in_corpus movies m :
  m ∈ movies →
  ∃ a, genres_multi_hot (genre_int_map_of movies) (Genres m) = Ok a
       ∧ multi_hot_of (genre_int_map_of movies) (Genres m) a.
Proof.
  intros Hm. set (gm := genre_int_map_of movies).
  assert (∀ g, g ∈ split_sep "|" (Genres m) → is_Some (gm !! g)) as Hvoc.
  { intros g Hg. apply genre_int_map_of_is_Some. by exists m. }
  destruct (comprehension_getitem_total _ _ Hvoc) as [idx Hidx].
  pose proof Hidx as HF%comprehension_getitem.
  unfold genres_multi_hot. rewrite Hidx. simpl.
  destruct (np_put (np_zeros (size gm)) idx 1) as [cells|e] eqn:Hput; simpl.
  - exists (NdVector cells). split; [done |].
    apply np_put_Ok in Hput as [Hlen Hcells].
    unfold np_zeros in Hlen, Hcells. rewrite length_replicate in Hlen, Hcells.
    exists cells. split_and!; [done | done |]. intros j Hj. rewrite Hlen in Hj.
    assert (written (size gm) idx j ↔
            ∃ g, g ∈ split_sep "|" (Genres m) ∧ gm !! g = Some (Z.of_nat j)) as Hw.
    { split.
      - intros (i & [n Hn]%list_elem_of_lookup & Hij).
        destruct (Forall2_lookup_r _ _ _ _ _ HF Hn) as (g & Hg & Hgi).
        exists g. split; [by eapply list_elem_of_lookup_2 |].
        pose proof (genre_int_map_of_range _ _ _ Hgi) as Hr. fold gm in Hr.
        rewrite np_index_nonneg in Hij by done. injection Hij as <-.
        rewrite Hgi. f_equal. lia.
      - intros (g & [n Hn]%list_elem_of_lookup & Hgj).
        destruct (Forall2_lookup_l _ _ _ _ _ HF Hn) as (i & Hi & Hgi).
        exists i. split; [by eapply list_elem_of_lookup_2 |].
        assert (i = Z.of_nat j) as -> by congruence.
        rewrite np_index_nonneg by lia. f_equal. lia. }
    simpl. rewrite <- Hw.
    destruct (Hcells j Hj) as [[Hy Hc] | [Hn Hc]]; split; try done.
    intros _. by rewrite Hc, lookup_replicate_2.
  - apply np_put_Raise in Hput as (_ & i & [n Hn]%list_elem_of_lookup & Hr).
    destruct (Forall2_lookup_r _ _ _ _ _ HF Hn) as (g & Hg & Hgi).
    apply genre_int_map_of_range in Hgi. fold gm in Hgi.
    unfold np_zeros in Hr. rewrite length_replicate in Hr. lia.
Qed.

(** The title encoder on a title of the corpus its map was built from. *)
Lemma title_encode_in_corpus titles t :
  t ∈ titles → ∃ a, title_encode (word_int_map_of titles) t = Ok a.
Proof.
  intros Ht.
  assert (∀ w, w ∈ split_ws t → is_Some (word_int_map_of titles !! w)) as Hvoc.
  { intros w Hw. apply word_int_map_of_is_Some. by exists t. }
  destruct (title_encode_lookups _ _ Hvoc) as [idx HF].
  rewrite (title_encode_eval _ _ _ HF). case_match; by eexists.
Qed.
End vocabularies.

(** ** The movies block *)

Section movies.
Context {age_order : SetOrder Z} {token_order : SetOrder string}.

(** The rows are the movies with their three derived columns. *)
Lemma movie_rows_zip (movies : list movie) titles hots indices
    (P : movie → string → Prop) (Q : movie → ndarray → Prop)
    (R : string → ndarray → Prop) :
  Forall2 P movies titles → Forall2 Q movies hots → Forall2 R titles indices →
  let rows := zip_with (λ m '(t, h, i),
                {| movie_of := m; TitleWithoutYear := t;
                   GenresMultiHot := h; TitleIndex := unbox i |})
                movies (zip (zip titles hots) indices) in
  TitleWithoutYear <$> rows = titles
  ∧ Forall2 (λ m r, movie_of r = m ∧ P m (TitleWithoutYear r)
                    ∧ Q m (GenresMultiHot r)
                    ∧ ∃ a, R (TitleWithoutYear r) a ∧ TitleIndex r = unbox a)
            movies rows.
Proof.
  intros HP. revert hots indices.
  induction HP as [|m t movies titles Hmt HP IH]; intros hots indices HQ HR.
  - split; [done | constructor].
  - inversion HQ as [|? h ? hots' Hmh HQ']; subst.
    inversion HR as [|? i ? indices' Hti HR']; subst.
    destruct (IH _ _ HQ' HR') as [Heq HF]. simpl in *.
    split; [by f_equal |]. constructor; [| done].
    split_and!; [done | done | done |]. by exists i.
Qed.

(** When [load_data] gets through the movies block, and what it has
    then. *)
Lemma load_movies_Ok movies rows genre_int_map word_int_map :
  load_movies movies = Ok (rows, genre_int_map, word_int_map) →
  genre_int_map = genre_int_map_of movies
  ∧ word_int_map = word_int_map_of (TitleWithoutYear <$> rows)
  ∧ Forall2 (λ m r,
      movie_of r = m
      ∧ title_without_year (Title m) = Ok (TitleWithoutYear r)
      ∧ genres_multi_hot genre_int_map (Genres m) = Ok (GenresMultiHot r)
      ∧ ∃ a, title_encode word_int_map (TitleWithoutYear r) = Ok a
             ∧ TitleIndex r = unbox a)
      movies rows.
Proof.
  unfold load_movies.
  destruct (comprehension (title_without_year ∘ Title) movies)
    as [titles|] eqn:Ht; simpl; [| done].
  destruct (comprehension (genres_multi_hot _ ∘ Genres) movies)
    as [hots|] eqn:Hh; simpl; [| done].
  destruct (comprehension (title_encode _) titles)
    as [indices|] eqn:Hi; simpl; [| done].
  intros [= <- <- <-].
  apply comprehension_Ok in Ht, Hh, Hi.
  destruct (movie_rows_zip _ _ _ _ _ _ _ Ht Hh Hi) as [Heq HF].
  simpl in Heq, HF. rewrite Heq. split_and!; [done | done |].
  eapply Forall2_impl; [exact HF |]. simpl. by intros m r (? & ? & ? & ?).
Qed.

(** The only exception of the movies block is the one of a title without
    a year. *)
Lemma load_movies_Raise movies e :
  load_movies movies = Raise e →
  e = AttributeError ∧ ∃ m, m ∈ movies ∧ pattern_match (Title m) = None.
Proof.
  unfold load_movies.
  destruct (comprehension (title_without_year ∘ Title) movies)
    as [titles|e1] eqn:Ht; simpl.
  - destruct (comprehension_total
                (genres_multi_hot (genre_int_map_of movies) ∘ Genres) movies)
      as [hots ->].
    { intros m Hm. destruct (genres_multi_hot_in_corpus movies m Hm) as (a & Ha & _).
      by exists a. }
    destruct (comprehension_total (title_encode (word_int_map_of titles)) titles)
      as [indices ->]; [| done].
    intros t Ht'. by apply title_encode_in_corpus.
  - intros [= ->]. apply comprehension_Raise in Ht as (m & Hm & Hr).
    unfold title_without_year in Hr. simpl in Hr.
    destruct (pattern_match (Title m)) as [[g1 g2]|] eqn:Hp; [done |].
    injection Hr as <-. split; [done |]. by exists m.
Qed.

Lemma load_movies_returns movies :
  (∀ m, m ∈ movies → is_Some (pattern_match (Title m))) →
  ∃ rows genre_int_map word_int_map,
    load_movies movies = Ok (rows, genre_int_map, word_int_map).
Proof.
  intros Hpat. destruct (load_movies movies) as [[[rows gm] wm]|e] eqn:E.
  - by exists rows, gm, wm.
  - apply load_movies_Raise in E as (_ & m & Hm & Hnone).
    destruct (Hpat m Hm) as [? ?]. congruence.
Qed.


(** C9: every genre token of a movie is a key of the genre map built from
    the corpus, every word of a title is a key of the word map built from
    the titles, neither encoder raises KeyError on the corpus its map comes
    from, and [load_data] never ends in a KeyError. *)
Theorem vocabulary_lookups_never_fail movies :
  (∀ m g, m ∈ movies → g ∈ split_sep "|" (Genres m) →
     is_Some (genre_int_map_of movies !! g))
  ∧ (∀ titles t w, t ∈ titles → w ∈ split_ws t →
       is_Some (word_int_map_of titles !! w))
  ∧ (∀ m key, m ∈ movies →
       genres_multi_hot (genre_int_map_of movies) (Genres m) ≠ Raise (KeyError key))
  ∧ (∀ titles t key, t ∈ titles →
       title_encode (word_int_map_of titles) t ≠ Raise (KeyError key))
  ∧ (∀ key, load_movies movies ≠ Raise (KeyError key)).
Proof.
  split_and!.
  - intros m g Hm Hg. apply genre_int_map_of_is_Some. by exists m.
  - intros titles t w Ht Hw. apply word_int_map_of_is_Some. by exists t.
  - intros m key Hm. destruct (genres_multi_hot_in_corpus movies m Hm) as (a & -> & _).
    done.
  - intros titles t key Ht. by destruct (title_encode_in_corpus titles t Ht) as (a & ->).
  - intros key [? _]%load_movies_Raise. done.
Qed.
End movies.


Lemma vocabulary_lookups_never_fail_witness :
  is_Some (genre_int_map_of (token_order := last_seen_order string) two_movies !! "Crime").
Proof.
  refine (proj1 (vocabulary_lookups_never_fail (token_order := last_seen_order string)
                   two_movies) heat "Crime" _ _).
  - by apply (list_elem_of_lookup_2 two_movies 1).
  - apply (bool_decide_unpack _). vm_compute. exact I.
Defined.

Example load_movies_two_movies :
  match load_movies (token_order := last_seen_order string) two_movies with
  | Ok (rows, genre_int_map, _) =>
      GenresMultiHot <$> rows
      = [NdVector [1; 1; 1; 0; 0; 0]; NdVector [0; 0; 0; 1; 1; 1]]
      ∧ TitleIndex <$> rows
        = [VArray [1; 2; 0; 0; 0; 0; 0; 0; 0; 0; 0; 0; 0; 0; 0];
           VArray [3; 0; 0; 0; 0; 0; 0; 0; 0; 0; 0; 0; 0; 0; 0]]
  | Raise _ => False
  end.
Proof. vm_compute. split; reflexivity. Qed.

(** ** The users block *)

Section users.
Context {age_order : SetOrder Z}.

Lemma load_users_row users (r : user_row) :
  r ∈ load_users users ↔
  ∃ u, u ∈ users ∧ r = {| user_of := u;
                          GenderIndex := gender_map !! Gender u;
                          AgeIndex := age_map_of users !! Age u |}.
Proof.
  unfold load_users. rewrite list_elem_of_fmap.
  split; intros (u & H1 & H2); exists u; by split.
Qed.

Lemma age_map_of_lookup users a i :
  age_map_of users !! a = Some i ↔
  ∃ n : nat, set_iter (Age <$> users) !! n = Some a ∧ i = Z.of_nat n.
Proof.
  unfold age_map_of. rewrite dict_enumerate_lookup by apply set_iter_NoDup.
  by setoid_rewrite Z.add_0_l.
Qed.

Lemma age_map_of_dense users : dense_index_of (Age <$> users) (age_map_of users).
Proof.
  exists (set_iter (Age <$> users)). split_and!.
  - apply set_iter_NoDup.
  - apply set_iter_elem.
  - apply age_map_of_lookup.
Qed.

Lemma gender_map_lookup g :
  gender_map !! g
  = if decide (g = "F") then Some 0 else if decide (g = "M") then Some 1 else None.
Proof.
  unfold gender_map. repeat case_decide; subst; by simplify_map_eq.
Qed.

(** C3, amended: the age index is made from the data: the age map numbers
    the ages present in the table 0, 1, 2, ... along the iteration order
    of their set, and every row gets the number of its age; the gender
    index is read from the fixed map F:0, M:1, whatever the table holds. *)
Theorem age_index_follows_data_gender_index_fixed users :
  dense_index_of (Age <$> users) (age_map_of users)
  ∧ (∀ a i, age_map_of users !! a = Some i ↔
            ∃ n : nat, set_iter (Age <$> users) !! n = Some a ∧ i = Z.of_nat n)
  ∧ (∀ r : user_row, r ∈ load_users users →
       ∃ n : nat, set_iter (Age <$> users) !! n = Some (Age r)
                  ∧ AgeIndex r = Some (Z.of_nat n))
  ∧ (∀ r : user_row, r ∈ load_users users →
       GenderIndex r = gender_map !! Gender r)
  ∧ gender_map = {[ "F" := 0; "M" := 1 ]}.
Proof.
  split_and!; [apply age_map_of_dense | apply age_map_of_lookup | | | done].
  - intros r (u & Hu & ->)%load_users_row. simpl.
    assert (Age u ∈ set_iter (Age <$> users)) as [n Hn]%list_elem_of_lookup.
    { apply set_iter_elem, list_elem_of_fmap. by exists u. }
    exists n. split; [done |]. apply age_map_of_lookup. by exists n.
  - by intros r (u & Hu & ->)%load_users_row.
Qed.

(** C4, amended: the GenderIndex of every row is the value of the fixed
    map F:0, M:1 at the row's gender, whatever genders occur in the table:
    0 for F, 1 for M and missing (NaN) for any other gender, so that it is
    0 or 1 exactly for the rows whose gender is F or M; and two rows of any
    two tables that have the same gender have the same GenderIndex. *)
Theorem gender_index_of_fixed_map users (r : user_row) :
  r ∈ load_users users →
  GenderIndex r = ({[ "F" := 0; "M" := 1 ]} : gmap string Z) !! Gender r
  ∧ (Gender r = "F" → GenderIndex r = Some 0)
  ∧ (Gender r = "M" → GenderIndex r = Some 1)
  ∧ (Gender r ≠ "F" → Gender r ≠ "M" → GenderIndex r = None)
  ∧ (GenderIndex r = Some 0 ∨ GenderIndex r = Some 1
     ↔ Gender r = "F" ∨ Gender r = "M")
  ∧ (∀ users' (r' : user_row), r' ∈ load_users users' →
       Gender r' = Gender r → GenderIndex r' = GenderIndex r).
Proof.
  intros (u & Hu & ->)%load_users_row. simpl in *.
  split_and!.
  - done.
  - intros ->. by rewrite gender_map_lookup.
  - intros ->. by rewrite gender_map_lookup.
  - intros HF HM. rewrite gender_map_lookup. by repeat case_decide.
  - rewrite gender_map_lookup. repeat case_decide; split.
    + by left.
    + by left.
    + by right.
    + by right.
    + by intros [? | ?].
    + by intros [? | ?].
  - intros users' r' (u' & Hu' & ->)%load_users_row. simpl. by intros ->.
Qed.

(** Any other gender value is missing from the map and gives NaN. *)
Lemma gender_index_of_other_value users (r : user_row) :
  r ∈ load_users users → Gender r ≠ "F" → Gender r ≠ "M" → GenderIndex r = None.
Proof.
  intros (u & Hu & ->)%load_users_row HF HM. simpl in *.
  rewrite gender_map_lookup. by repeat case_decide.
Qed.
End users.

(** C3 as stated fails: in a table with men only, the gender map still
    has the key F and sends M to 1, so it is not a numbering of the values
    present. *)
Lemma gender_map_not_from_data :
  ¬ index_maps_follow_data (age_order := last_seen_order Z) only_men.
Proof.
  intros [(order & _ & Helem & Hmap) _].
  assert (gender_map !! "F" = Some 0) as (n & Hn & _)%Hmap by done.
  apply list_elem_of_lookup_2, Helem in Hn.
  revert Hn. apply (bool_decide_unpack _). vm_compute. exact I.
Qed.

Lemma age_index_follows_data_gender_index_fixed_witness :
  ∃ n : nat,
    set_iter (SetOrder := last_seen_order Z) (Age <$> three_users) !! n = Some 56
    ∧ age_map_of (age_order := last_seen_order Z) three_users !! 56 = Some (Z.of_nat n).
Proof.
  destruct (age_index_follows_data_gender_index_fixed
              (age_order := last_seen_order Z) three_users) as (_ & Hlookup & _).
  exists 1%nat. split; [reflexivity |]. apply Hlookup. exists 1%nat. by split.
Defined.

(** C4 as stated fails: a row whose gender is neither F nor M has no
    GenderIndex (NaN), which is not 0 or 1. *)
Lemma gender_index_not_always_0_or_1 :
  ¬ gender_index_0_or_1 (age_order := last_seen_order Z) other_gender_users.
Proof.
  intros Hall. destruct (Hall other_gender_row) as [[H0 | H1] _].
  - apply (list_elem_of_lookup_2 _ 0). vm_compute. reflexivity.
  - discriminate H0.
  - discriminate H1.
Qed.

Lemma gender_index_of_fixed_map_witness :
  GenderIndex first_user_row = Some 0 ∨ GenderIndex first_user_row = Some 1
  ↔ Gender first_user_row = "F" ∨ Gender first_user_row = "M".
Proof.
  refine (proj1 (proj2 (proj2 (proj2 (proj2
            (gender_index_of_fixed_map (age_order := last_seen_order Z)
               three_users first_user_row _)))))).
  apply (list_elem_of_lookup_2 _ 0). vm_compute. reflexivity.
Defined.

(** The age numbering does depend on the iteration order of the set. *)
Example age_map_depends_on_order :
  age_map_of (age_order := last_seen_order Z) three_users !! 1 = Some 0
  ∧ age_map_of (age_order := backwards_order Z) three_users !! 1 = Some 2.
Proof. split; vm_compute; reflexivity. Qed.

(** ** The fetcher *)

Section fetcher_properties.
Context {W : Type} (os : OS W).

(** C8: when the destination directory and the archive in it exist, the
    run only prints that the download is skipped: nothing is fetched,
    read or hashed, the world is unchanged and the path is returned.
    When the archive does not exist once the directory is there, the
    archive is fetched and read and its digest computed; the run returns
    the path if the digest is the expected one, and otherwise stops with
    an AssertionError whose message says to remove the file. *)
Theorem download_ml_1m_skip_or_validate (w : W) (save_path : string) :
  let save_pathname := path_join save_path "ml-1m.zip" in
  (os_path_exists os w save_path = true →
   os_path_exists os w save_pathname = true →
   download_ml_1m os save_path (w, [])
   = (Ok save_pathname,
      (w, [EvPrint "skip download ml-1m.zip because the file exists !"])))
  ∧ (∀ w1 made w2 data,
       (os_path_exists os w save_path = true ∧ w1 = w ∧ made = [])
       ∨ (os_path_exists os w save_path = false
          ∧ os_makedirs os w save_path = Ok w1
          ∧ made = [EvMakedirs save_path]) →
       os_path_exists os w1 save_pathname = false →
       os_urlretrieve os w1 url save_pathname = Ok w2 →
       os_read os w2 save_pathname = Ok data →
       let calls := made ++ [EvUrlretrieve url save_pathname;
                             EvRead save_pathname; EvMd5 data] in
       (md5_hexdigest os data = hash_code →
          download_ml_1m os save_path (w, [])
          = (Ok save_pathname,
             (w2, calls ++ [EvPrint "Download ml-1m.zip successfully !"])))
       ∧ (md5_hexdigest os data ≠ hash_code →
          download_ml_1m os save_path (w, [])
          = (Raise (AssertionError
                      (save_path +:+ " file is corrupted. Remove the file and try again.")),
             (w2, calls)))).
Proof.
  intros save_pathname. split.
  - intros Hdir Hfile. unfold download_ml_1m, io_bind, path_exists, when.
    fold save_pathname. rewrite Hdir. simpl. by rewrite Hfile.
  - intros w1 made w2 data Hdir Hfile Hget Hread calls.
    assert (∀ digest_ok : bool,
      String.eqb (md5_hexdigest os data) hash_code = digest_ok →
      download_ml_1m os save_path (w, [])
      = if digest_ok
        then (Ok save_pathname,
              (w2, calls ++ [EvPrint "Download ml-1m.zip successfully !"]))
        else (Raise (AssertionError (corrupted_message save_path)), (w2, calls)))
      as Hrun.
    { intros digest_ok Hd.
      unfold download_ml_1m, io_bind, path_exists, when, makedirs, urlretrieve,
        read_binary, md5, py_assert, print, io_bind, log, io_ret.
      fold save_pathname.
      destruct Hdir as [(-> & -> & ->) | (-> & Hmk & ->)]; simpl.
      - rewrite Hfile, Hget, Hread, Hd. by destruct digest_ok.
      - rewrite Hmk, Hfile, Hget, Hread, Hd. by destruct digest_ok. }
    split.
    + intros Heq. apply (Hrun true). by apply String.eqb_eq.
    + intros Hne. apply (Hrun false). by apply String.eqb_neq.
Qed.
End fetcher_properties.

Lemma download_ml_1m_skip_or_validate_witness :
  download_ml_1m (toy_os "ml-1m archive") "./data" (world_with_archive, [])
  = (Ok "./data/ml-1m.zip",
     (world_with_archive,
      [EvPrint "skip download ml-1m.zip because the file exists !"]))
  ∧ download_ml_1m (toy_os "truncated") "./data" (∅, [])
    = (Raise (AssertionError "./data file is corrupted. Remove the file and try again."),
       (<["./data/ml-1m.zip" := "truncated"]> {[ "./data" := "" ]},
        [EvMakedirs "./data"; EvUrlretrieve url "./data/ml-1m.zip";
         EvRead "./data/ml-1m.zip"; EvMd5 "truncated"])).
Proof.
  split.
  - apply (proj1 (download_ml_1m_skip_or_validate
                    (toy_os "ml-1m archive") world_with_archive "./data"));
      vm_compute; reflexivity.
  - refine (proj2 (proj2 (download_ml_1m_skip_or_validate
                            (toy_os "truncated") ∅ "./data")
                     {[ "./data" := "" ]} [EvMakedirs "./data"]
                     (<["./data/ml-1m.zip" := "truncated"]> {[ "./data" := "" ]})
                     "truncated" _ _ _ _) _).
    + right. split_and!; vm_compute; reflexivity.
    + vm_compute; reflexivity.
    + reflexivity.
    + vm_compute; reflexivity.
    + vm_compute. discriminate.
Defined.

(** * Further properties of the code *)

(** ** Splitting byte strings *)

Lemma split_sep_nonempty sep s : split_sep sep s ≠ [].
Proof.
  destruct s as [|c s]; simpl; [done |].
  destruct (Ascii.eqb c sep); [done |]. by destruct (split_sep sep s).
Qed.

Lemma join_sep_cons_char sep c w ws :
  join_sep sep (String c w :: ws) = String c (join_sep sep (w :: ws)).
Proof. by destruct ws. Qed.

Lemma join_sep_cons sep f g fs :
  join_sep sep (f :: g :: fs) = f +:+ String sep (join_sep sep (g :: fs)).
Proof. done. Qed.

Lemma list_ascii_of_string_app s1 s2 :
  list_ascii_of_string (s1 +:+ s2) = list_ascii_of_string s1 ++ list_ascii_of_string s2.
Proof. induction s1 as [|c s1 IH]; simpl; [done | by rewrite IH]. Qed.

Lemma string_of_list_ascii_app l1 l2 :
  string_of_list_ascii (l1 ++ l2) = string_of_list_ascii l1 +:+ string_of_list_ascii l2.
Proof. induction l1 as [|c l1 IH]; simpl; [done | by rewrite IH]. Qed.

(** X1: [split] with a one-byte separator is the inverse of [join]: it
    always returns at least one field, no field contains the separator,
    joining the fields with the separator gives the string back, and any
    non-empty list of separator-free fields is what splitting their join
    returns. *)
Theorem split_sep_inverse_of_join (sep : ascii) :
  (∀ s, split_sep sep s ≠ []
        ∧ (∀ f, f ∈ split_sep sep s → sep ∉ list_ascii_of_string f)
        ∧ join_sep sep (split_sep sep s) = s)
  ∧ (∀ fields, fields ≠ [] →
       (∀ f, f ∈ fields → sep ∉ list_ascii_of_string f) →
       split_sep sep (join_sep sep fields) = fields).
Proof.
  split.
  - intros s. split; [apply split_sep_nonempty |]. induction s as [|c s [IHf IHj]]; simpl.
    + split; [| done]. intros f ->%list_elem_of_singleton. simpl. apply not_elem_of_nil.
    + destruct (Ascii.eqb_spec c sep) as [-> | Hne].
      * split.
        -- intros f [-> | Hf]%elem_of_cons; [apply not_elem_of_nil | by apply IHf].
        -- pose proof (split_sep_nonempty sep s).
           destruct (split_sep sep s) as [|g fs]; [done |].
           by rewrite join_sep_cons, IHj.
      * pose proof (split_sep_nonempty sep s).
        destruct (split_sep sep s) as [|w ws]; [done |]. split.
        -- intros f [-> | Hf]%elem_of_cons.
           ++ simpl. intros [? | Hin]%elem_of_cons; [done |].
              by apply (IHf w); [left |].
           ++ apply IHf. by right.
        -- by rewrite join_sep_cons_char, IHj.
  - intros fields. induction fields as [|f fs IH]; [done |]. intros _ Hfree.
    assert (sep ∉ list_ascii_of_string f) as Hf by (apply Hfree; by left).
    destruct fs as [|g fs].
    + simpl. clear IH Hfree. induction f as [|c f IHf]; [done |]. simpl in *.
      apply not_elem_of_cons in Hf as [Hc Hf].
      destruct (Ascii.eqb_spec c sep) as [-> | _]; [done |]. by rewrite IHf.
    + rewrite join_sep_cons.
      assert (split_sep sep (join_sep sep (g :: fs)) = g :: fs) as Hrest.
      { apply IH; [done |]. intros f' Hf'. apply Hfree. by right. }
      clear IH Hfree. induction f as [|c f IHf]; simpl in *.
      * rewrite Ascii.eqb_refl. by rewrite Hrest.
      * apply not_elem_of_cons in Hf as [Hc Hf].
        destruct (Ascii.eqb_spec c sep) as [-> | _]; [done |]. by rewrite IHf.
Qed.

Lemma flush_word_words cur w :
  Forall (λ c, is_space c = false) cur →
  w ∈ flush_word cur →
  w ≠ "" ∧ Forall (λ c, is_space c = false) (list_ascii_of_string w).
Proof.
  intros Hcur. destruct cur as [|c cur]; simpl; [by intros ?%elem_of_nil |].
  intros ->%list_elem_of_singleton. split.
  - intros Hw%(f_equal list_ascii_of_string).
    rewrite list_ascii_of_string_of_list_ascii in Hw. simpl in Hw.
    by destruct (rev cur).
  - rewrite list_ascii_of_string_of_list_ascii.
    change (rev cur ++ [c]) with (rev (c :: cur)).
    apply Forall_forall. intros x Hx. rewrite Forall_forall in Hcur.
    apply Hcur. apply list_elem_of_In. apply list_elem_of_In in Hx.
    by apply List.in_rev.
Qed.

Lemma split_ws_from_words cur s w :
  Forall (λ c, is_space c = false) cur →
  w ∈ split_ws_from cur s →
  w ≠ "" ∧ Forall (λ c, is_space c = false) (list_ascii_of_string w).
Proof.
  revert cur. induction s as [|c s IH]; intros cur Hcur; simpl.
  - by apply flush_word_words.
  - destruct (is_space c) eqn:Hc.
    + intros [Hw | Hw]%elem_of_app; [by eapply flush_word_words |].
      by apply (IH []); [constructor |].
    + apply IH. by constructor.
Qed.

Lemma split_ws_from_blank cur s :
  Forall (λ c, is_space c = true) (list_ascii_of_string s) →
  split_ws_from cur s = flush_word cur.
Proof.
  revert cur. induction s as [|c s IH]; intros cur; simpl; [done |].
  intros [Hc Hs]%Forall_cons. rewrite Hc, (IH [] Hs). simpl. apply app_nil_r.
Qed.

(** X2: [split] without argument never yields an empty word or a word
    containing a whitespace byte, and a string made of whitespace only (the
    empty string included) has no words. *)
Theorem split_ws_words (s : string) :
  (∀ w, w ∈ split_ws s →
     w ≠ "" ∧ Forall (λ c, is_space c = false) (list_ascii_of_string w))
  ∧ (Forall (λ c, is_space c = true) (list_ascii_of_string s) → split_ws s = []).
Proof.
  split.
  - intros w. by apply split_ws_from_words.
  - intros Hs. unfold split_ws. by rewrite split_ws_from_blank.
Qed.

(** ** The title pattern *)

Lemma span_digits_spec r ds rest :
  span_digits r = (ds, rest) →
  r = ds ++ rest ∧ Forall (λ c, is_digit c = true) ds.
Proof.
  revert ds rest. induction r as [|c r IH]; intros ds rest; simpl.
  - intros [= <- <-]. by split.
  - destruct (is_digit c) eqn:Hc.
    + destruct (span_digits r) as [ds' rest'].
      intros [= <- <-]. destruct (IH _ _ eq_refl) as [-> Hds].
      split; [done | by constructor].
    + intros [= <- <-]. by split.
Qed.

Lemma span_digits_app ds c rest :
  Forall (λ c, is_digit c = true) ds → is_digit c = false →
  span_digits (ds ++ c :: rest) = (ds, c :: rest).
Proof.
  intros Hds Hc. induction Hds as [|d ds Hd _ IH]; simpl.
  - by rewrite Hc.
  - by rewrite Hd, IH.
Qed.

Lemma existsb_newline_false l :
  existsb (Ascii.eqb newline) l = false ↔ newline ∉ l.
Proof.
  induction l as [|c l IH].
  - split; [intros _; apply not_elem_of_nil | done].
  - cbn [existsb]. by rewrite not_elem_of_cons, <- IH, orb_false_iff, Ascii.eqb_neq.
Qed.

(** X3: when the title pattern matches, the subject is group 1, an opening
    parenthesis, group 2 and a closing parenthesis, possibly followed by one
    final newline; group 2 is a non-empty run of digits and group 1 contains
    no newline. *)
Theorem pattern_match_sound (x g1 g2 : string) :
  pattern_match x = Some (g1, g2) →
  (x = with_year g1 g2 ∨ x = with_year g1 g2 +:+ String newline "")
  ∧ g2 ≠ ""
  ∧ Forall (λ c, is_digit c = true) (list_ascii_of_string g2)
  ∧ newline ∉ list_ascii_of_string g1.
Proof.
  intros Hm. unfold pattern_match in Hm.
  pose proof (string_of_list_ascii_of_string x) as Hx.
  pose proof (rev_involutive (list_ascii_of_string x)) as Hl.
  set (r := rev (list_ascii_of_string x)) in *.
  set (r' := match r with
             | c :: r0 => if Ascii.eqb c newline then r0 else r
             | [] => r
             end) in Hm.
  assert (r = r' ∨ r = newline :: r') as Hr.
  { subst r'. destruct r as [|c r0]; [by left |].
    destruct (Ascii.eqb_spec c newline) as [-> | _]; [by right | by left]. }
  clearbody r' r. destruct r' as [|c r1]; [done |].
  destruct (Ascii.eqb_spec c ")") as [-> | _]; [| done].
  destruct (span_digits r1) as [ds r2] eqn:Hspan.
  destruct ds as [|d ds]; [done |]. destruct r2 as [|o r3]; [done |].
  destruct (Ascii.eqb_spec o "(") as [-> | _]; [| done]. simpl in Hm.
  destruct (existsb (Ascii.eqb newline) r3) eqn:Hnl; [done |].
  injection Hm as <- <-.
  apply span_digits_spec in Hspan as [-> Hdig].
  assert (string_of_list_ascii (rev (")"%char :: (d :: ds) ++ "("%char :: r3))
          = with_year (string_of_list_ascii (rev r3))
                      (string_of_list_ascii (rev (d :: ds)))) as Hyear.
  { unfold with_year. change (")"%char :: (d :: ds) ++ "("%char :: r3)
      with ([")"%char] ++ (d :: ds) ++ ["("%char] ++ r3).
    rewrite !rev_app_distr, <- !app_assoc, !string_of_list_ascii_app. done. }
  split_and!.
  - rewrite <- Hx, <- Hl. destruct Hr as [-> | ->].
    + left. exact Hyear.
    + right. change (newline :: ?l) with ([newline] ++ l).
      rewrite rev_app_distr, string_of_list_ascii_app, Hyear. done.
  - intros Hg%(f_equal list_ascii_of_string).
    rewrite list_ascii_of_string_of_list_ascii in Hg. simpl in Hg.
    by destruct (rev ds).
  - rewrite list_ascii_of_string_of_list_ascii. apply Forall_forall.
    intros c Hc. rewrite Forall_forall in Hdig. apply Hdig.
    apply list_elem_of_In. apply list_elem_of_In in Hc. by apply List.in_rev.
  - rewrite list_ascii_of_string_of_list_ascii.
    apply existsb_newline_false in Hnl. intros Hc. apply Hnl.
    apply list_elem_of_In. apply list_elem_of_In in Hc. by apply List.in_rev.
Qed.

(** X4: a subject made of a newline-free text, an opening parenthesis, a
    non-empty run of digits and a closing parenthesis matches, with the text
    as group 1 and the digits as group 2, whatever parentheses the text
    itself contains; [title_without_year] then returns the text. *)
Theorem pattern_match_complete (g1 g2 : string) :
  newline ∉ list_ascii_of_string g1 →
  g2 ≠ "" →
  Forall (λ c, is_digit c = true) (list_ascii_of_string g2) →
  pattern_match (with_year g1 g2) = Some (g1, g2)
  ∧ title_without_year (with_year g1 g2) = Ok g1.
Proof.
  intros Hg1 Hg2 Hdig.
  assert (pattern_match (with_year g1 g2) = Some (g1, g2)) as Hm.
  { unfold pattern_match, with_year.
    rewrite !list_ascii_of_string_app. simpl list_ascii_of_string.
    change (list_ascii_of_string g1 ++ "("%char :: list_ascii_of_string g2 ++ [")"%char])
      with (list_ascii_of_string g1 ++ ["("%char] ++ list_ascii_of_string g2 ++ [")"%char]).
    rewrite !rev_app_distr, <- !app_assoc. simpl.
    rewrite span_digits_app.
    - destruct (rev (list_ascii_of_string g2)) as [|d ds] eqn:Hrev.
      { apply (f_equal (@rev _)) in Hrev. rewrite rev_involutive in Hrev. simpl in Hrev.
        apply (f_equal string_of_list_ascii) in Hrev.
        rewrite string_of_list_ascii_of_string in Hrev. done. }
      rewrite (proj2 (existsb_newline_false _)).
      + rewrite <- Hrev, !rev_involutive, !string_of_list_ascii_of_string. done.
      + intros Hc. apply Hg1. apply list_elem_of_In. apply list_elem_of_In in Hc.
        by apply List.in_rev in Hc.
    - apply Forall_forall. intros c Hc. rewrite Forall_forall in Hdig. apply Hdig.
      apply list_elem_of_In. apply list_elem_of_In in Hc. by apply List.in_rev in Hc.
    - done. }
  split; [done |]. unfold title_without_year. by rewrite Hm.
Qed.

Lemma pattern_match_complete_witness :
  pattern_match "Toy Story (unrated) (1995)" = Some ("Toy Story (unrated) ", "1995").
Proof.
  refine (proj1 (pattern_match_complete "Toy Story (unrated) " "1995" _ _ _)).
  - apply (bool_decide_unpack _). vm_compute. exact I.
  - done.
  - apply (bool_decide_unpack _). vm_compute. exact I.
Defined.

Lemma pattern_match_sound_witness :
  "Heat (1995)" = with_year "Heat " "1995"
  ∨ "Heat (1995)" = with_year "Heat " "1995" +:+ String newline "".
Proof.
  refine (proj1 (pattern_match_sound "Heat (1995)" "Heat " "1995" _)).
  reflexivity.
Defined.

(** ** Missing keys *)

Lemma comprehension_first_Raise {A B} (f : A → result B) pre x post e :
  (∀ y, y ∈ pre → ∃ v, f y = Ok v) → f x = Raise e →
  comprehension f (pre ++ x :: post) = Raise e.
Proof.
  intros Hpre Hx. induction pre as [|y pre IH]; simpl.
  - by rewrite Hx.
  - destruct (Hpre y) as [v ->]; [by left |]. simpl.
    rewrite IH; [done |]. intros y' Hy'. apply Hpre. by right.
Qed.

Lemma getitem_is_Some (d : gmap string Z) k : is_Some (d !! k) → ∃ v, getitem d k = Ok v.
Proof. intros [v Hv]. exists v. unfold getitem. by rewrite Hv. Qed.

Lemma getitem_None (d : gmap string Z) k : d !! k = None → getitem d k = Raise (KeyError k).
Proof. intros Hk. unfold getitem. by rewrite Hk. Qed.

(** X5: the title encoder raises KeyError for the first word of the title
    that is not in the map, whatever the number of words of the title: the
    words are looked up before their number is tested. *)
Theorem title_encode_missing_word (word_int_map : gmap string Z) title pre w post :
  split_ws title = pre ++ w :: post →
  (∀ v, v ∈ pre → is_Some (word_int_map !! v)) →
  word_int_map !! w = None →
  title_encode word_int_map title = Raise (KeyError w).
Proof.
  intros Hsplit Hpre Hw. unfold title_encode. rewrite Hsplit.
  rewrite (comprehension_first_Raise _ _ _ _ (KeyError w)); [done | |].
  - intros v Hv. by apply getitem_is_Some, Hpre.
  - by apply getitem_None.
Qed.

Lemma title_encode_missing_word_witness :
  title_encode {[ "a" := 1 ]} "a b a a a a a a a a a a a a a a a c" = Raise (KeyError "b").
Proof.
  apply (title_encode_missing_word _ _ ["a"] "b"
           ["a"; "a"; "a"; "a"; "a"; "a"; "a"; "a"; "a"; "a"; "a"; "a"; "a"; "a"; "a"; "c"]).
  - vm_compute. reflexivity.
  - apply Forall_forall. apply (bool_decide_unpack _). vm_compute. exact I.
  - vm_compute. reflexivity.
Defined.

(** X6: the multi-hot encoder raises KeyError for the first token of the
    genres string that is not in the map; the empty genres string has the
    empty token, so it raises KeyError for it unless the map has the empty
    key. *)
Theorem genres_multi_hot_missing_token (genre_int_map : gmap string Z) :
  (∀ genres pre g post,
     split_sep "|" genres = pre ++ g :: post →
     (∀ v, v ∈ pre → is_Some (genre_int_map !! v)) →
     genre_int_map !! g = None →
     genres_multi_hot genre_int_map genres = Raise (KeyError g))
  ∧ (genre_int_map !! "" = None →
     genres_multi_hot genre_int_map "" = Raise (KeyError "")).
Proof.
  assert (∀ genres pre g post,
     split_sep "|" genres = pre ++ g :: post →
     (∀ v, v ∈ pre → is_Some (genre_int_map !! v)) →
     genre_int_map !! g = None →
     genres_multi_hot genre_int_map genres = Raise (KeyError g)) as Hfirst.
  { intros genres pre g post Hsplit Hpre Hg. unfold genres_multi_hot. rewrite Hsplit.
    rewrite (comprehension_first_Raise _ _ _ _ (KeyError g)); [done | |].
    - intros v Hv. by apply getitem_is_Some, Hpre.
    - by apply getitem_None. }
  split; [exact Hfirst |].
  intros Hempty. apply (Hfirst "" [] "" []); [done | | done].
  by intros v ?%elem_of_nil.
Qed.

Lemma genres_multi_hot_missing_token_witness :
  genres_multi_hot war_genres "War|Western|Musical" = Raise (KeyError "Western")
  ∧ genres_multi_hot war_genres "" = Raise (KeyError "").
Proof.
  split.
  - apply (proj1 (genres_multi_hot_missing_token war_genres) _ ["War"] "Western" ["Musical"]).
    + vm_compute. reflexivity.
    + apply Forall_forall. apply (bool_decide_unpack _). vm_compute. exact I.
    + vm_compute. reflexivity.
  - apply (proj2 (genres_multi_hot_missing_token war_genres)). vm_compute. reflexivity.
Defined.

(** X7: a title without words, the empty title or one of whitespace only,
    is encoded as fifteen zeros; no key is looked up, so this holds for
    every map. *)
Theorem title_encode_blank_title (word_int_map : gmap string Z) (title : string) :
  Forall (λ c, is_space c = true) (list_ascii_of_string title) →
  title_encode word_int_map title = Ok (NdVector (replicate 15 0)).
Proof.
  intros Hblank. unfold title_encode, split_ws.
  by rewrite split_ws_from_blank.
Qed.

Lemma title_encode_blank_title_witness :
  title_encode ∅ "   " = Ok (NdVector (replicate 15 0)).
Proof.
  apply title_encode_blank_title.
  apply (bool_decide_unpack _). vm_compute. exact I.
Defined.

(** ** The index maps *)

Section index_maps.
Context `{Countable K} {order : SetOrder K}.
Implicit Types (l : list K).

Lemma dict_enumerate_set_size l start :
  size (dict_enumerate start (set_iter l)) = length (remove_dups l).
Proof.
  rewrite dict_enumerate_size by apply set_iter_NoDup.
  apply Permutation_length, NoDup_Permutation.
  - apply set_iter_NoDup.
  - apply NoDup_remove_dups.
  - intros k. by rewrite set_iter_elem, elem_of_remove_dups.
Qed.

Lemma dict_enumerate_set_range l start k i :
  dict_enumerate start (set_iter l) !! k = Some i →
  start ≤ i < start + Z.of_nat (size (dict_enumerate start (set_iter l))).
Proof.
  intros (n & Hn & ->)%dict_enumerate_lookup; [| apply set_iter_NoDup].
  rewrite dict_enumerate_size by apply set_iter_NoDup.
  apply lookup_lt_Some in Hn. lia.
Qed.

Lemma dict_enumerate_set_inj l start k k' i :
  dict_enumerate start (set_iter l) !! k = Some i →
  dict_enumerate start (set_iter l) !! k' = Some i →
  k = k'.
Proof.
  intros (n & Hn & ->)%dict_enumerate_lookup; [| apply set_iter_NoDup].
  intros (n' & Hn' & Heq)%dict_enumerate_lookup; [| apply set_iter_NoDup].
  assert (n = n') as -> by lia. congruence.
Qed.

(** X8: the dictionary made from the enumeration of a set, as the age,
    genre and word maps are, has the distinct values as its keys, one entry
    per distinct value, and numbers them one to one with the integers from
    [start] up: every value is within that range, every integer of the
    range is taken, and no two keys share a number. *)
Theorem dict_of_enumerated_set_is_bijection (start : Z) l :
  let d := dict_enumerate start (set_iter l) in
  (∀ k, is_Some (d !! k) ↔ k ∈ l)
  ∧ size d = length (remove_dups l)
  ∧ (∀ k i, d !! k = Some i → start ≤ i < start + Z.of_nat (size d))
  ∧ (∀ i, start ≤ i < start + Z.of_nat (size d) → ∃ k, d !! k = Some i)
  ∧ (∀ k k' i, d !! k = Some i → d !! k' = Some i → k = k').
Proof.
  intros d. split_and!.
  - intros k. unfold d. by rewrite dict_enumerate_is_Some, set_iter_elem
      by apply set_iter_NoDup.
  - apply dict_enumerate_set_size.
  - apply dict_enumerate_set_range.
  - intros i Hi. unfold d in *.
    rewrite dict_enumerate_size in Hi by apply set_iter_NoDup.
    destruct (lookup_lt_is_Some_2 (set_iter l) (Z.to_nat (i - start))) as [k Hk]; [lia |].
    exists k. apply dict_enumerate_lookup; [apply set_iter_NoDup |].
    exists (Z.to_nat (i - start)). split; [done | lia].
  - apply dict_enumerate_set_inj.
Qed.
End index_maps.

Section title_index.
Context {token_order : SetOrder string}.

(** X9: in [load_data], where the word map numbers the words from 1, the
    TitleIndex of a title of at most 15 words can be read back: it has 15
    cells, a cell is 0 exactly when it lies beyond the last word, and the
    cell of a word holds a number that the word map gives to that word and
    to no other. *)
Theorem title_index_reads_back (titles : list string) (t : string) :
  t ∈ titles →
  (length (split_ws t) ≤ 15)%nat →
  ∃ cells,
    title_encode (word_int_map_of titles) t = Ok (NdVector cells)
    ∧ length cells = 15%nat
    ∧ (∀ j, (j < 15)%nat →
         cells !! j = Some 0 ↔ (length (split_ws t) ≤ j)%nat)
    ∧ (∀ j w, split_ws t !! j = Some w →
         ∃ i, cells !! j = Some i ∧ 1 ≤ i
              ∧ ∀ w', word_int_map_of titles !! w' = Some i ↔ w' = w).
Proof.
  intros Ht Hn.
  assert (∀ w, w ∈ split_ws t → is_Some (word_int_map_of titles !! w)) as Hvoc.
  { intros w Hw. apply word_int_map_of_is_Some. by exists t. }
  destruct (title_encode_lookups _ _ Hvoc) as [idx HF].
  pose proof (Forall2_length _ _ _ HF) as Hlen.
  rewrite (title_encode_eval _ _ _ HF), <- Hlen.
  destruct (Nat.ltb_spec 15 (length (split_ws t))) as [? | _]; [lia |].
  assert (∀ j w, split_ws t !! j = Some w →
            ∃ i, idx !! j = Some i ∧ 1 ≤ i
                 ∧ ∀ w', word_int_map_of titles !! w' = Some i ↔ w' = w) as Hword.
  { intros j w Hj. destruct (Forall2_lookup_l _ _ _ _ _ HF Hj) as (i & Hi & Hwi).
    exists i. split_and!; [done | |].
    - by apply (dict_enumerate_set_range _ 1) in Hwi as [? _].
    - intros w'. split; [| by intros ->].
      intros Hw'. by apply (dict_enumerate_set_inj _ _ _ _ _ Hw' Hwi). }
  exists (idx ++ replicate (15 - length (split_ws t)) 0). split_and!; [done | | |].
  - rewrite length_app, length_replicate. lia.
  - intros j Hj. destruct (decide (j < length (split_ws t))%nat) as [Hlt | Hge].
    + destruct (lookup_lt_is_Some_2 (split_ws t) j Hlt) as [w Hw].
      destruct (Hword j w Hw) as (i & Hi & Hpos & _).
      rewrite (lookup_app_l_Some _ _ _ _ Hi). split; [intros [= ->]; lia | lia].
    + rewrite lookup_app_r by lia. rewrite lookup_replicate_2 by lia.
      split; [lia | done].
  - intros j w Hj. destruct (Hword j w Hj) as (i & Hi & Hrest).
    exists i. by rewrite (lookup_app_l_Some _ _ _ _ Hi).
Qed.
End title_index.

Lemma title_index_reads_back_witness :
  ∃ cells,
    title_encode (word_int_map_of (token_order := last_seen_order string)
                    ["Toy Story "; "Heat "]) "Heat " = Ok (NdVector cells)
    ∧ length cells = 15%nat.
Proof.
  destruct (title_index_reads_back (token_order := last_seen_order string)
              ["Toy Story "; "Heat "] "Heat ") as (cells & Henc & Hlen & _).
  - by apply (list_elem_of_lookup_2 _ 1).
  - vm_compute. lia.
  - by exists cells.
Defined.

(** ** The multi-hot vector and the set of tokens *)

Lemma np_put_Ok_in_range a idx x a' :
  np_put a idx x = Ok a' →
  ∀ i, i ∈ idx → - Z.of_nat (length a) ≤ i < Z.of_nat (length a).
Proof.
  revert a. induction idx as [|i0 idx IH]; intros a; simpl.
  - intros _ i Hi. by apply elem_of_nil in Hi.
  - destruct (np_index (length a) i0) as [k|e] eqn:Hk; simpl; [| done].
    intros Hput i [-> | Hi]%elem_of_cons.
    + unfold np_index in Hk. repeat case_match; try done; lia.
    + specialize (IH _ Hput i Hi). by rewrite length_insert in IH.
Qed.

Lemma np_put_same_indices a idx idx' x :
  (∀ i, i ∈ idx ↔ i ∈ idx') → np_put a idx x = np_put a idx' x.
Proof.
  intros Hsame.
  assert (∀ l l' c, (∀ i, i ∈ l ↔ i ∈ l') → np_put a l x = Ok c →
            ∃ c', np_put a l' x = Ok c') as Hok.
  { intros l l' c Hll Hput. destruct (np_put a l' x) as [c'|e] eqn:E; [by exists c' |].
    apply np_put_Raise in E as (_ & i & Hi & Hr). destruct Hr.
    apply (np_put_Ok_in_range _ _ _ _ Hput). by apply Hll. }
  destruct (np_put a idx x) as [c|e] eqn:E.
  - destruct (Hok _ _ _ Hsame E) as [c' E']. rewrite E'. f_equal.
    apply np_put_Ok in E as [Hlen Hc], E' as [Hlen' Hc'].
    apply list_eq. intros j. destruct (decide (j < length a)%nat) as [Hj | Hj].
    + assert (written (length a) idx j ↔ written (length a) idx' j) as Hw.
      { unfold written. by setoid_rewrite Hsame. }
      destruct (Hc j Hj) as [[Hy ->] | [Hn ->]], (Hc' j Hj) as [[Hy' ->] | [Hn' ->]];
        tauto.
    + rewrite !lookup_ge_None_2; [done | lia | lia].
  - destruct (np_put a idx' x) as [c'|e'] eqn:E'.
    + destruct (Hok idx' idx c') as [c E'']; [by intros i; rewrite Hsame | done |].
      congruence.
    + apply np_put_Raise in E as [-> _], E' as [-> _]. done.
Qed.

(** X10: for a map that has all the tokens, the multi-hot encoder depends
    only on the set of tokens of the genres string: two strings with the
    same tokens, in any order and with any repetitions, get the same
    result. *)
Theorem genres_multi_hot_token_set (genre_int_map : gmap string Z) (a b : string) :
  (∀ g, g ∈ split_sep "|" a ↔ g ∈ split_sep "|" b) →
  (∀ g, g ∈ split_sep "|" a → is_Some (genre_int_map !! g)) →
  genres_multi_hot genre_int_map a = genres_multi_hot genre_int_map b.
Proof.
  intros Hsame Hvoc.
  assert (∀ g, g ∈ split_sep "|" b → is_Some (genre_int_map !! g)) as Hvoc'.
  { intros g Hg. by apply Hvoc, Hsame. }
  destruct (comprehension_getitem_total _ _ Hvoc) as [idx Hidx].
  destruct (comprehension_getitem_total _ _ Hvoc') as [idx' Hidx'].
  unfold genres_multi_hot. rewrite Hidx, Hidx'. simpl.
  apply comprehension_getitem in Hidx, Hidx'.
  assert (∀ s l, Forall2 (λ k v, genre_int_map !! k = Some v) s l →
            ∀ i, i ∈ l ↔ ∃ g, g ∈ s ∧ genre_int_map !! g = Some i) as Himg.
  { intros s l HF i. split.
    - intros [n Hn]%list_elem_of_lookup.
      destruct (Forall2_lookup_r _ _ _ _ _ HF Hn) as (g & Hg & Hgi).
      exists g. split; [by eapply list_elem_of_lookup_2 | done].
    - intros (g & [n Hn]%list_elem_of_lookup & Hgi).
      destruct (Forall2_lookup_l _ _ _ _ _ HF Hn) as (i' & Hi' & Hgi').
      assert (i = i') as -> by congruence. by eapply list_elem_of_lookup_2. }
  rewrite (np_put_same_indices _ idx idx'); [done |].
  intros i. rewrite (Himg _ _ Hidx), (Himg _ _ Hidx'). by setoid_rewrite Hsame.
Qed.

Lemma genres_multi_hot_token_set_witness :
  genres_multi_hot war_genres "War|Drama|War" = genres_multi_hot war_genres "Drama|War".
Proof.
  apply genres_multi_hot_token_set.
  - intros g. split; intros Hg.
    + revert g Hg. apply Forall_forall. apply (bool_decide_unpack _). vm_compute. exact I.
    + revert g Hg. apply Forall_forall. apply (bool_decide_unpack _). vm_compute. exact I.
  - apply Forall_forall. apply (bool_decide_unpack _). vm_compute. exact I.
Defined.

(** ** The tables of load_data *)

Section tables.
Context {age_order : SetOrder Z} {token_order : SetOrder string}.

(** X11: the movies block of [load_data] has two outcomes.  Either every
    title ends in a parenthesised number: then it returns one row per
    movie, in order, whose TitleWithoutYear is group 1 of the pattern on
    the title, with the genre map of the corpus and the word map of these
    stripped titles.  Or some title does not: then it raises
    AttributeError, and nothing else is ever raised. *)
Theorem load_movies_outcome (movies : list movie) :
  match load_movies movies with
  | Ok (rows, genre_int_map, word_int_map) =>
      (∀ m : movie, m ∈ movies → is_Some (pattern_match (Title m)))
      ∧ movie_of <$> rows = movies
      ∧ (∀ r : movie_row, r ∈ rows →
           ∃ year, pattern_match (Title r) = Some (TitleWithoutYear r, year))
      ∧ genre_int_map = genre_int_map_of movies
      ∧ word_int_map = word_int_map_of (TitleWithoutYear <$> rows)
  | Raise e =>
      e = AttributeError
      ∧ ∃ m : movie, m ∈ movies ∧ pattern_match (Title m) = None
  end.
Proof.
  destruct (load_movies movies) as [[[rows gm] wm]|e] eqn:E.
  - apply load_movies_Ok in E as (-> & -> & HF).
    assert (∀ m (r : movie_row), title_without_year (Title m) = Ok (TitleWithoutYear r) →
              ∃ year, pattern_match (Title m) = Some (TitleWithoutYear r, year)) as Hgroup.
    { intros m r Ht. unfold title_without_year in Ht.
      destruct (pattern_match (Title m)) as [[g1 g2]|]; [| done].
      injection Ht as <-. by exists g2. }
    split_and!; [| | | done | done].
    + intros m [n Hn]%list_elem_of_lookup.
      destruct (Forall2_lookup_l _ _ _ _ _ HF Hn) as (r & _ & _ & Ht & _).
      destruct (Hgroup _ _ Ht) as [year ->]. by eexists.
    + clear Hgroup. induction HF as [|m r ms rs (<- & _) _ IH]; [done |].
      by rewrite fmap_cons, IH.
    + intros r [n Hn]%list_elem_of_lookup.
      destruct (Forall2_lookup_r _ _ _ _ _ HF Hn) as (m & _ & <- & Ht & _).
      by apply Hgroup.
  - by apply load_movies_Raise.
Qed.

(** X12: the users block keeps the rows and their order; every row gets
    an AgeIndex, a number from 0 up to, and not including, the number of
    distinct ages of the table; and two rows have the same AgeIndex exactly
    when they have the same age. *)
Theorem load_users_age_index (users : list user) :
  user_of <$> load_users users = users
  ∧ (∀ r : user_row, r ∈ load_users users →
       ∃ i, AgeIndex r = Some i
            ∧ 0 ≤ i < Z.of_nat (length (remove_dups (Age <$> users))))
  ∧ (∀ r r' : user_row, r ∈ load_users users → r' ∈ load_users users →
       AgeIndex r = AgeIndex r' ↔ Age r = Age r').
Proof.
  assert (∀ r : user_row, r ∈ load_users users →
            AgeIndex r = age_map_of users !! Age r
            ∧ ∃ i, age_map_of users !! Age r = Some i) as Hrow.
  { intros r (u & Hu & ->)%load_users_row. simpl. split; [done |].
    apply dict_enumerate_is_Some; [apply set_iter_NoDup |].
    apply set_iter_elem, list_elem_of_fmap. by exists u. }
  split_and!.
  - unfold load_users. rewrite <- list_fmap_compose. apply list_fmap_id.
  - intros r Hr. destruct (Hrow r Hr) as (-> & i & Hi). exists i. split; [done |].
    pose proof (dict_enumerate_set_range _ _ _ _ Hi) as Hrange.
    unfold age_map_of in Hrange. rewrite dict_enumerate_set_size in Hrange. lia.
  - intros r r' Hr Hr'. destruct (Hrow r Hr) as (-> & i & Hi).
    destruct (Hrow r' Hr') as (-> & i' & Hi'). split.
    + rewrite Hi. intros Heq. symmetry in Heq.
      by apply (dict_enumerate_set_inj _ _ _ _ _ Hi Heq).
    + by intros ->.
Qed.

(** X13: the GenderIndex of a row is missing (NaN) exactly when the
    row's gender is neither F nor M; no error is raised for such a row. *)
Theorem gender_index_missing_iff (users : list user) (r : user_row) :
  r ∈ load_users users →
  GenderIndex r = None ↔ Gender r ≠ "F" ∧ Gender r ≠ "M".
Proof.
  intros (u & Hu & ->)%load_users_row. simpl. rewrite gender_map_lookup.
  repeat case_decide; split; try done; intros [? ?]; done.
Qed.
End tables.

(** ** Every run of the fetcher *)

(** Membership of an event in an explicit log. *)
Ltac event_inversion :=
  repeat match goal with
    | H : _ ∈ [] |- _ => apply elem_of_nil in H; destruct H
    | H : _ ∈ _ :: _ |- _ => apply elem_of_cons in H; destruct H as [H | H]
    | H : @eq event _ _ |- _ => first [discriminate H | injection H as -> -> | injection H as ->]
    end.


Section fetcher_runs.
Context {W : Type} (os : OS W).

(** The six ways a run can go, by the answers of the environment. *)
Lemma download_ml_1m_cases (w : W) (save_path : string) :
  let save_pathname := path_join save_path "ml-1m.zip" in
  let skip := EvPrint "skip download ml-1m.zip because the file exists !" in
  let success := EvPrint "Download ml-1m.zip successfully !" in
  (∃ e, os_path_exists os w save_path = false
        ∧ os_makedirs os w save_path = Raise e
        ∧ download_ml_1m os save_path (w, []) = (Raise e, (w, [EvMakedirs save_path])))
  ∨ ∃ w1 made,
      ((os_path_exists os w save_path = true ∧ w1 = w ∧ made = [])
       ∨ (os_path_exists os w save_path = false
          ∧ os_makedirs os w save_path = Ok w1 ∧ made = [EvMakedirs save_path]))
      ∧ ((os_path_exists os w1 save_pathname = true
          ∧ download_ml_1m os save_path (w, [])
            = (Ok save_pathname, (w1, made ++ [skip])))
         ∨ (os_path_exists os w1 save_pathname = false
            ∧ ((∃ e, os_urlretrieve os w1 url save_pathname = Raise e
                  ∧ download_ml_1m os save_path (w, [])
                    = (Raise e, (w1, made ++ [EvUrlretrieve url save_pathname])))
               ∨ ∃ w2, os_urlretrieve os w1 url save_pathname = Ok w2
                  ∧ ((∃ e, os_read os w2 save_pathname = Raise e
                        ∧ download_ml_1m os save_path (w, [])
                          = (Raise e, (w2, made ++ [EvUrlretrieve url save_pathname;
                                                    EvRead save_pathname])))
                     ∨ ∃ data, os_read os w2 save_pathname = Ok data
                        ∧ ((md5_hexdigest os data ≠ hash_code
                            ∧ download_ml_1m os save_path (w, [])
                              = (Raise (AssertionError (corrupted_message save_path)),
                                 (w2, made ++ [EvUrlretrieve url save_pathname;
                                               EvRead save_pathname; EvMd5 data])))
                           ∨ (md5_hexdigest os data = hash_code
                              ∧ download_ml_1m os save_path (w, [])
                                = (Ok save_pathname,
                                   (w2, made ++ [EvUrlretrieve url save_pathname;
                                                 EvRead save_pathname; EvMd5 data;
                                                 success])))))))).
Proof.
  intros save_pathname skip success.
  unfold download_ml_1m, io_bind, path_exists, when, makedirs, urlretrieve,
    read_binary, md5, py_assert, print, io_bind, log, io_ret.
  fold save_pathname.
  destruct (os_path_exists os w save_path) eqn:Hdir; simpl.
  - right. exists w, []. split; [by left |].
    destruct (os_path_exists os w save_pathname) eqn:Hfile; simpl; [by left |].
    right. split; [done |].
    destruct (os_urlretrieve os w url save_pathname) as [w2|e] eqn:Hget; simpl;
      [right; exists w2; split; [done |] | left; by exists e].
    destruct (os_read os w2 save_pathname) as [data|e] eqn:Hread; simpl;
      [right; exists data; split; [done |] | left; by exists e].
    destruct (String.eqb_spec (md5_hexdigest os data) hash_code) as [Heq | Hne];
      simpl; [by right | by left].
  - destruct (os_makedirs os w save_path) as [w1|e] eqn:Hmk; simpl;
      [| left; by exists e].
    right. exists w1, [EvMakedirs save_path]. split; [by right |].
    destruct (os_path_exists os w1 save_pathname) eqn:Hfile; simpl; [by left |].
    right. split; [done |].
    destruct (os_urlretrieve os w1 url save_pathname) as [w2|e] eqn:Hget; simpl;
      [right; exists w2; split; [done |] | left; by exists e].
    destruct (os_read os w2 save_pathname) as [data|e] eqn:Hread; simpl;
      [right; exists data; split; [done |] | left; by exists e].
    destruct (String.eqb_spec (md5_hexdigest os data) hash_code) as [Heq | Hne];
      simpl; [by right | by left].
Qed.
End fetcher_runs.

Section fetcher_failures.
Context {W : Type} (os : OS W).


(** X16: in an environment where [makedirs] and [urlretrieve] leave what
    they create in place and [urlretrieve] removes nothing, a run that ends
    in an exception after the digest was computed ended in the
    AssertionError of a wrong digest, and it leaves the bad archive on
    disk: the next run finds it, skips the download and the validation, and
    returns its path. *)
Theorem download_ml_1m_rerun_after_mismatch (w w2 : W) (save_path : string)
    (e : exn) (evs : list event) (data : string) :
  let save_pathname := path_join save_path "ml-1m.zip" in
  (∀ wa p wb, os_makedirs os wa p = Ok wb → os_path_exists os wb p = true) →
  (∀ wa u f wb, os_urlretrieve os wa u f = Ok wb →
     os_path_exists os wb f = true
     ∧ ∀ p, os_path_exists os wa p = true → os_path_exists os wb p = true) →
  download_ml_1m os save_path (w, []) = (Raise e, (w2, evs)) →
  EvMd5 data ∈ evs →
  e = AssertionError (save_path +:+ " file is corrupted. Remove the file and try again.")
  ∧ md5_hexdigest os data ≠ hash_code
  ∧ download_ml_1m os save_path (w2, [])
    = (Ok save_pathname,
       (w2, [EvPrint "skip download ml-1m.zip because the file exists !"])).
Proof.
  intros save_pathname Hmk Hget Hrun Hin.
  destruct (download_ml_1m_cases os w save_path)
    as [(e' & _ & _ & Hr)
       | (w1 & made & Hmade &
          [[_ Hr] | [_ [(e' & _ & Hr) | (w2' & Hfetch &
            [(e' & _ & Hr) | (data' & _ & [[Hne Hr] | [Heq Hr]])])]]])];
    fold save_pathname in Hr; rewrite Hr in Hrun; simplify_eq;
    try (assert (made = [] ∨ made = [EvMakedirs save_path]) as Hm
           by (destruct Hmade as [(_ & _ & ->) | (_ & _ & ->)]; auto);
         destruct Hm as [-> | ->]);
    simpl in Hin; event_inversion.
  all: fold save_pathname in Hfetch; destruct (Hget _ _ _ _ Hfetch) as [Hfile Hkeep].
  all: match type of Hfetch with
       | _ = Ok ?wb =>
           assert (os_path_exists os wb save_path = true) as Hdir
             by (apply Hkeep; destruct Hmade as [(? & -> & _) | (_ & ? & _)]; eauto)
       end.
  all: split_and!; [done | done |].
  all: unfold download_ml_1m, io_bind, path_exists, when; fold save_pathname.
  all: rewrite Hdir; simpl; by rewrite Hfile.
Qed.
End fetcher_failures.


Lemma toy_os_makedirs_stays served (wa : gmap string string) p wb :
  os_makedirs (toy_os served) wa p = Ok wb → os_path_exists (toy_os served) wb p = true.
Proof.
  simpl. destruct (String.eqb p ""); [done |]. intros [= <-].
  apply bool_decide_eq_true. by rewrite lookup_insert_eq.
Qed.

Lemma toy_os_urlretrieve_stays served (wa : gmap string string) (u f : string) wb :
  os_urlretrieve (toy_os served) wa u f = Ok wb →
  os_path_exists (toy_os served) wb f = true
  ∧ ∀ p, os_path_exists (toy_os served) wa p = true →
         os_path_exists (toy_os served) wb p = true.
Proof.
  simpl. intros [= <-]. split.
  - apply bool_decide_eq_true. by rewrite lookup_insert_eq.
  - intros p Hp%bool_decide_eq_true. apply bool_decide_eq_true.
    destruct (decide (f = p)) as [-> | Hne];
      [by rewrite lookup_insert_eq | by rewrite lookup_insert_ne].
Qed.

Lemma download_ml_1m_rerun_after_mismatch_witness :
  download_ml_1m (toy_os "truncated") "./data"
    (<["./data/ml-1m.zip" := "truncated"]> {[ "./data" := "" ]}, [])
  = (Ok "./data/ml-1m.zip",
     (<["./data/ml-1m.zip" := "truncated"]> {[ "./data" := "" ]},
      [EvPrint "skip download ml-1m.zip because the file exists !"])).
Proof.
  refine (proj2 (proj2 (download_ml_1m_rerun_after_mismatch (toy_os "truncated")
            ∅ _ "./data" _ _ "truncated"
            (toy_os_makedirs_stays "truncated") (toy_os_urlretrieve_stays "truncated")
            _ _))).
  - vm_compute. reflexivity.
  - apply (list_elem_of_lookup_2 _ 3). reflexivity.
Defined.

(** ** The progress hook *)

Lemma hook_calls_snoc block_size reports block_num total_size self :
  hook_calls block_size (reports ++ [(block_num, total_size)]) self
  = hook block_num block_size total_size (hook_calls block_size reports self).
Proof. unfold hook_calls. by rewrite foldl_app. Qed.

Lemma sum_Z_app l1 l2 : sum_Z (l1 ++ l2) = sum_Z l1 + sum_Z l2.
Proof. unfold sum_Z. induction l1 as [|x l1 IH]; simpl; lia. Qed.

Lemma hook_calls_updates block_size reports self :
  ∃ new, updates (hook_calls block_size reports self) = updates self ++ new
         ∧ length new = length reports
         ∧ sum_Z new
           = (last_block (hook_calls block_size reports self) - last_block self)
             * block_size.
Proof.
  induction reports as [|[b t] reports IH] using rev_ind.
  - exists []. simpl. rewrite app_nil_r. split_and!; [done | done | lia].
  - destruct IH as (new & Hupd & Hlen & Hsum). rewrite hook_calls_snoc.
    exists (new ++ [(b - last_block (hook_calls block_size reports self)) * block_size]).
    simpl. rewrite Hupd, app_assoc, !length_app, sum_Z_app, Hsum. simpl.
    split_and!; [done | lia | lia].
Qed.

(** X17: over the reports of one transfer, whose blocks all have the same
    size, the hook calls [update] once per report, and the amounts it
    passes add up to the block size times the distance from the block
    number the bar started with to the last reported one, whatever numbers
    were reported in between; the bar ends with the last reported block
    number and total size. *)
Theorem hook_updates_add_up (block_size : Z) (reports : list (Z * option Z))
    (block_num : Z) (total_size : option Z) (self : DLProgress) :
  let self' := hook_calls block_size (reports ++ [(block_num, total_size)]) self in
  last_block self' = block_num
  ∧ total self' = total_size
  ∧ ∃ new, updates self' = updates self ++ new
           ∧ length new = S (length reports)
           ∧ sum_Z new = (block_num - last_block self) * block_size.
Proof.
  intros self'.
  assert (last_block self' = block_num) as Hlast
    by (unfold self'; by rewrite hook_calls_snoc).
  split_and!; [done | unfold self'; by rewrite hook_calls_snoc |].
  destruct (hook_calls_updates block_size (reports ++ [(block_num, total_size)]) self)
    as (new & Hupd & Hlen & Hsum).
  fold self' in Hupd, Hsum. rewrite Hlast in Hsum.
  exists new. split_and!; [done | | done]. rewrite Hlen, length_app. simpl. lia.
Qed.

Example hook_calls_of_urlretrieve :
  updates (hook_calls 8192 [(0, Some 20000); (1, Some 20000); (2, Some 20000);
                            (3, Some 20000)] new_progress)
  = [0; 8192; 8192; 8192].
Proof. reflexivity. Qed.

(** ** Counting the cells that are set *)

Lemma length_filter_remove (J : list nat) n :
  NoDup J → n ∈ J → S (length (filter (λ j, j ≠ n) J)) = length J.
Proof.
  induction 1 as [|j J Hj Hnd IH]; [by intros ?%elem_of_nil |].
  intros [-> | Hn]%elem_of_cons.
  - rewrite filter_cons_False by (intros Hne; by apply Hne). simpl. f_equal.
    clear IH Hnd. induction J as [|k J IH]; [done |].
    apply not_elem_of_cons in Hj as [Hne Hj].
    rewrite filter_cons_True by done. simpl. by rewrite IH.
  - rewrite filter_cons_True by (intros ->; done). simpl. by rewrite IH.
Qed.

Lemma count_ones (cells : list Z) (J : list nat) :
  NoDup J →
  (∀ j, j ∈ J → (j < length cells)%nat) →
  (∀ j, (j < length cells)%nat →
     (j ∈ J → cells !! j = Some 1) ∧ (j ∉ J → cells !! j = Some 0)) →
  length (filter (λ c, c = 1) cells) = length J.
Proof.
  revert J. induction cells as [|c cells IH] using rev_ind; intros J Hnd Hlt Hcells.
  - destruct J as [|j J]; [done |]. specialize (Hlt j (list_elem_of_here _ _)).
    simpl in Hlt. lia.
  - rewrite length_app in Hlt, Hcells. simpl in Hlt, Hcells.
    assert (∀ j, (j < length cells)%nat → (cells ++ [c]) !! j = cells !! j) as Hsame
      by (intros j Hj; by rewrite lookup_app_l).
    assert ((cells ++ [c]) !! length cells = Some c) as Hc
      by (rewrite lookup_app_r, Nat.sub_diag by lia; done).
    rewrite filter_app, length_app. destruct (decide (length cells ∈ J)) as [Hin | Hout].
    + destruct (Hcells (length cells)) as [Hone _]; [lia |].
      rewrite Hc in Hone. injection (Hone Hin) as ->.
      rewrite filter_cons_True, filter_nil by done. simpl.
      rewrite <- (length_filter_remove J (length cells)) by done.
      rewrite (IH (filter (λ j, j ≠ length cells) J)); [lia | | |].
      * by apply NoDup_filter.
      * intros j [Hne Hj]%list_elem_of_filter. specialize (Hlt j Hj). lia.
      * intros j Hj. destruct (Hcells j) as [Hone' Hzero']; [lia |].
        rewrite Hsame in Hone', Hzero' by done. split.
        -- intros [_ Hj']%list_elem_of_filter. by apply Hone'.
        -- intros Hnot. apply Hzero'. intros Hj'. apply Hnot.
           apply list_elem_of_filter. split; [lia | done].
    + destruct (Hcells (length cells)) as [_ Hzero]; [lia |].
      rewrite Hc in Hzero. injection (Hzero Hout) as ->.
      rewrite filter_cons_False, filter_nil by done. simpl.
      rewrite (IH J); [lia | done | |].
      * intros j Hj. specialize (Hlt j Hj).
        assert (j ≠ length cells) by (intros ->; done). lia.
      * intros j Hj. destruct (Hcells j) as [Hone' Hzero']; [lia |].
        by rewrite Hsame in Hone', Hzero' by done.
Qed.

Section counting.
Context {token_order : SetOrder string}.

(** X18: in [load_data] the multi-hot vector of a movie has as many cells
    set to 1 as the movie has distinct genre tokens, and at least one:
    no two genres share a cell. *)
Theorem genres_multi_hot_counts_tokens (movies : list movie) (m : movie) :
  m ∈ movies →
  ∃ cells,
    genres_multi_hot (genre_int_map_of movies) (Genres m) = Ok (NdVector cells)
    ∧ length (filter (λ c, c = 1) cells)
      = length (remove_dups (split_sep "|" (Genres m)))
    ∧ (0 < length (filter (λ c, c = 1%Z) cells))%nat.
Proof.
  intros Hm. set (gm := genre_int_map_of movies).
  set (tokens := split_sep "|" (Genres m)).
  destruct (genres_multi_hot_in_corpus movies m Hm) as (a & Henc & cells & -> & Hlen & Hcells).
  fold gm tokens in Henc, Hlen, Hcells.
  assert (∀ g, g ∈ tokens → ∃ j : nat, gm !! g = Some (Z.of_nat j) ∧ (j < size gm)%nat)
    as Hvoc.
  { intros g Hg. destruct (proj2 (genre_int_map_of_is_Some movies g)) as [i Hi];
      [by exists m |].
    pose proof (genre_int_map_of_range _ _ _ Hi) as Hr. fold gm in Hi, Hr.
    exists (Z.to_nat i). split; [| lia]. rewrite Hi. f_equal. lia. }
  assert (∀ g, g ∈ remove_dups tokens → g ∈ tokens) as Hrd
    by (intros g; apply elem_of_remove_dups).
  set (index := λ g, Z.to_nat (default 0 (gm !! g))).
  assert (∀ g j, gm !! g = Some (Z.of_nat j) → index g = j) as Hindex.
  { intros g j Hg. unfold index. rewrite Hg. simpl. lia. }
  assert (length (filter (λ c, c = 1) cells) = length (remove_dups tokens)) as Hcount.
  { rewrite <- (length_fmap index (remove_dups tokens)). apply count_ones.
    - apply NoDup_fmap_2_strong; [| apply NoDup_remove_dups].
      intros g g' Hg%Hrd Hg'%Hrd Heq.
      destruct (Hvoc g Hg) as (j & Hj & _), (Hvoc g' Hg') as (j' & Hj' & _).
      rewrite (Hindex _ _ Hj), (Hindex _ _ Hj') in Heq. subst j'.
      by apply (dict_enumerate_set_inj _ _ _ _ _ Hj Hj').
    - intros j (g & Hjg & Hg%Hrd)%list_elem_of_fmap.
      destruct (Hvoc g Hg) as (j0 & Hj0 & Hlt). rewrite Hjg, (Hindex _ _ Hj0). lia.
    - intros j Hj. destruct (Hcells j Hj) as [Hone Hzero].
      assert (j ∈ index <$> remove_dups tokens ↔
              ∃ g, g ∈ tokens ∧ gm !! g = Some (Z.of_nat j)) as Hiff.
      { rewrite list_elem_of_fmap. split.
        - intros (g & Hjg & Hg%Hrd). exists g. split; [done |].
          destruct (Hvoc g Hg) as (j0 & Hj0 & _). by rewrite Hjg, (Hindex _ _ Hj0).
        - intros (g & Hg & Hgj). exists g.
          split; [by rewrite (Hindex _ _ Hgj) | by apply elem_of_remove_dups]. }
      split; intros Hin; [apply Hone | apply Hzero]; by rewrite <- Hiff. }
  exists cells. split_and!; [done | done |]. rewrite Hcount.
  pose proof (split_sep_nonempty "|" (Genres m)) as Hne. fold tokens in Hne.
  destruct tokens as [|g tokens'] eqn:E; [done |].
  assert (g ∈ remove_dups (g :: tokens')) as Hg by (apply elem_of_remove_dups; by left).
  destruct (remove_dups (g :: tokens')); [by apply elem_of_nil in Hg | simpl; lia].
Qed.
End counting.

Lemma genres_multi_hot_counts_tokens_witness :
  ∃ cells,
    genres_multi_hot (genre_int_map_of (token_order := last_seen_order string) two_movies)
      (Genres heat) = Ok (NdVector cells)
    ∧ length (filter (λ c, c = 1) cells) = 3%nat.
Proof.
  destruct (genres_multi_hot_counts_tokens (token_order := last_seen_order string)
              two_movies heat) as (cells & Henc & Hcount & _).
  - by apply (list_elem_of_lookup_2 two_movies 1).
  - exists cells. split; [exact Henc | exact Hcount].
Defined.

Lemma gender_index_missing_iff_witness :
  GenderIndex first_user_row = None
  ↔ Gender first_user_row ≠ "F" ∧ Gender first_user_row ≠ "M".
Proof.
  apply (gender_index_missing_iff (age_order := last_seen_order Z) three_users).
  apply (list_elem_of_lookup_2 _ 0). vm_compute. reflexivity.
Defined.

Lemma split_sep_inverse_of_join_witness :
  split_sep "|" (join_sep "|" ["Action"; ""; "Crime"]) = ["Action"; ""; "Crime"].
Proof.
  apply (proj2 (split_sep_inverse_of_join "|")); [done |].
  apply Forall_forall. apply (bool_decide_unpack _). vm_compute. exact I.
Defined.

Lemma split_ws_words_witness : split_ws "   " = [].
Proof.
  apply (proj2 (split_ws_words "   ")).
  apply (bool_decide_unpack _). vm_compute. exact I.
Defined.

Lemma load_users_age_index_witness :
  ∃ i, AgeIndex first_user_row = Some i
       ∧ 0 ≤ i < Z.of_nat (length (remove_dups (Age <$> three_users))).
Proof.
  apply (proj1 (proj2 (load_users_age_index (age_order := last_seen_order Z) three_users))).
  apply (list_elem_of_lookup_2 _ 0). vm_compute. reflexivity.
Defined.


(** ** The length of the stored TitleIndex *)

Section title_index_length.
Context {token_order : SetOrder string}.

(** Where the length-15 promise holds and where it does not: the stored
    TitleIndex never has more than 15 elements; it is a vector of 15 cells
    for a title of at most 15 words; and for a longer title it is a byte
    string, of length 15 when the first 15 bytes of the title hold no NUL
    byte. *)
Lemma title_index_length movies rows genre_int_map word_int_map (r : movie_row) :
  load_movies movies = Ok (rows, genre_int_map, word_int_map) →
  r ∈ rows →
  (py_len (TitleIndex r) ≤ 15)%nat
  ∧ ((length (split_ws (TitleWithoutYear r)) ≤ 15)%nat →
       ∃ cells, TitleIndex r = VArray cells ∧ length cells = 15%nat)
  ∧ ((15 < length (split_ws (TitleWithoutYear r)))%nat →
       TitleIndex r = VBytes (strip_trailing_nul (str_prefix 15 (TitleWithoutYear r))))
  ∧ (nul ∉ list_ascii_of_string (str_prefix 15 (TitleWithoutYear r)) →
       py_len (TitleIndex r) = 15%nat).
Proof.
  intros (-> & -> & HF)%load_movies_Ok [n Hn]%list_elem_of_lookup.
  destruct (Forall2_lookup_r _ _ _ _ _ HF Hn) as (m & _ & _ & _ & _ & a & Henc & ->).
  set (t := TitleWithoutYear r) in *. set (titles := TitleWithoutYear <$> rows) in *.
  assert (t ∈ titles) as Ht.
  { apply list_elem_of_fmap. exists r. split; [done | by eapply list_elem_of_lookup_2]. }
  assert (∀ w, w ∈ split_ws t → is_Some (word_int_map_of titles !! w)) as Hvoc.
  { intros w Hw. apply word_int_map_of_is_Some. by exists t. }
  destruct (title_encode_lookups _ _ Hvoc) as [idx Hidx].
  pose proof (Forall2_length _ _ _ Hidx) as Hlen.
  rewrite (title_encode_eval _ _ _ Hidx), <- Hlen in Henc.
  destruct (Nat.ltb_spec 15 (length (split_ws t))) as [Hlong | Hshort];
    injection Henc as <-; simpl.
  - pose proof (strip_trailing_nul_length (str_prefix 15 t)) as Hstrip.
    pose proof (split_ws_length t) as Hbytes.
    rewrite str_prefix_length in Hstrip by lia.
    split_and!; [done | lia | done |].
    intros Hfree. rewrite strip_trailing_nul_nul_free by done.
    apply str_prefix_length. lia.
  - assert (length (idx ++ replicate (15 - length (split_ws t)) 0) = 15%nat) as Hcells
      by (rewrite length_app, length_replicate; lia).
    split_and!; [lia | | lia | done]. intros _. by eexists.
Qed.
End title_index_length.
